(** * Tello REPL: the outbound message queue and the UDP connection actor

    A shallow embedding of [src/Repl.cpp]: the class [MessageQueue], the
    class [Connection] with its asynchronous receive and send paths, and
    the construction of the [rc] command in [main].

    Conventions of the embedding.
    - [std::string] is [string]; a [std::shared_ptr<std::string>] is the
      string it points to (no code path writes through the pointer).
    - [std::queue] is a [list], front of the queue first.
    - The [std::lock_guard] taken by each queue method is acquired on entry
      and released on return; in the single-threaded event loop of [main]
      it carries no state from one call to the next and is not modelled.
    - A call either returns, throws, or has undefined behaviour
      ([outcome]).
    - The socket is modelled by the asynchronous operations that have been
      started on it and not yet completed, and by the log of datagrams
      handed to [async_send_to].  The event loop ([io_context.poll ()])
      delivers completions; the driver calls [send]. *)

From Stdlib Require Import List String Ascii ZArith Lia Bool Arith.
From Stdlib Require Import DecimalString.
Import ListNotations.

Local Open Scope string_scope.
Local Open Scope list_scope.

(** ** Outcomes of a C++ call *)

Inductive outcome (A : Type) : Type :=
| Returns (a : A)
| Throws (what : string)
| Undefined.

Arguments Returns {A} a.
Arguments Throws {A} what.
Arguments Undefined {A}.

Definition bind {A B : Type} (o : outcome A) (k : A -> outcome B) : outcome B :=
  match o with
  | Returns a => k a
  | Throws w => Throws w
  | Undefined => Undefined
  end.

Notation "x <- o ;; k" := (bind o (fun x => k))
  (at level 61, o at next level, right associativity).

(** A call signals an explicit error when it throws. *)
Definition explicit_error {A : Type} (o : outcome A) : Prop :=
  match o with
  | Throws _ => True
  | _ => False
  end.

(** ** MessageQueue *)

Module MessageQueue.

(** The member [queue]; the head of the list is [queue.front ()]. *)
Definition t : Type := list string.

Definition empty_queue : t := [].

(** [bool empty ()] *)
Definition empty (q : t) : bool :=
  match q with
  | [] => true
  | _ :: _ => false
  end.

(** [bool push (std::string message)]: the flag is read before the
    element is added. *)
Definition push (message : string) (q : t) : bool * t :=
  let empty := empty q in
  (empty, q ++ [message]).

(** [std::shared_ptr<std::string> pop ()]: [queue.front ()] followed by
    [queue.pop ()], with no test for emptiness.  Both calls have
    undefined behaviour on an empty [std::queue]. *)
Definition pop (q : t) : outcome (string * t) :=
  match q with
  | [] => Undefined
  | message :: rest => Returns (message, rest)
  end.

End MessageQueue.

(** ** The rc command of the polling loop *)

(** [std::clamp (v, lo, hi)] *)
Definition clamp (v lo hi : Z) : Z :=
  if (v <? lo)%Z then lo else if (hi <? v)%Z then hi else v.

(** [std::format] of an [int] with the replacement field [{}]. *)
Definition format_int (v : Z) : string :=
  NilZero.string_of_int (Z.to_int v).

(** The four fields, from the axis values already scaled by 100 and cast
    to [int]: [s0 .. s3] stand for
    [static_cast<int> (state.axes[i] * 100)]. *)
Definition rc_fields (s0 s1 s2 s3 : Z) : Z * Z * Z * Z :=
  let a := clamp s2 (-100) 100 in
  let b := clamp s3 (-100) 100 in
  let c := clamp s1 (-100) 100 in
  let d := clamp s0 (-100) 100 in
  (a, b, c, d).

(** [std::format ("rc {} {} {} {}", a, b, c, d)] *)
Definition rc_format (a b c d : Z) : string :=
  "rc " ++ format_int a ++ " " ++ format_int b ++ " "
        ++ format_int c ++ " " ++ format_int d.

Definition rc_command (s0 s1 s2 s3 : Z) : string :=
  let '(a, b, c, d) := rc_fields s0 s1 s2 s3 in
  rc_format a b c d.

(** ** Endpoints, error codes and the socket *)

(** [boost::asio::ip::udp::endpoint]: an address and a port. *)
Record udp_endpoint : Type := { address : string; port : Z }.

(** [boost::system::error_code]; [!ec] holds when the value is zero. *)
Record error_code : Type := { ec_value : Z; ec_message : string }.

Definition ec_ok (ec : error_code) : bool := (ec_value ec =? 0)%Z.

(** A send started with [async_send_to]: the buffer and the destination,
    which the operation copies when it is started. *)
Record send_op : Type := { so_payload : string; so_destination : udp_endpoint }.

(** The socket: how many receives have been started and not completed,
    the sends started and not completed (oldest first), and every
    datagram handed to [async_send_to] so far (oldest first). *)
Record udp_socket : Type := {
  receives_outstanding : nat;
  sends_outstanding : list send_op;
  wire : list send_op
}.

(** The socket [main] moves into the connection: open, bound, idle. *)
Definition bound_socket : udp_socket :=
  {| receives_outstanding := 0; sends_outstanding := []; wire := [] |}.

Definition async_receive_from (s : udp_socket) : udp_socket :=
  {| receives_outstanding := S (receives_outstanding s);
     sends_outstanding := sends_outstanding s;
     wire := wire s |}.

Definition async_send_to (payload : string) (destination : udp_endpoint)
    (s : udp_socket) : udp_socket :=
  let op := {| so_payload := payload; so_destination := destination |} in
  {| receives_outstanding := receives_outstanding s;
     sends_outstanding := sends_outstanding s ++ [op];
     wire := wire s ++ [op] |}.

(** ** Connection *)

Record Connection : Type := {
  receive_buffer : string;
  send_queue : MessageQueue.t;
  socket : udp_socket;
  endpoint : udp_endpoint
}.

Definition set_send_queue (q : MessageQueue.t) (c : Connection) : Connection :=
  {| receive_buffer := receive_buffer c; send_queue := q;
     socket := socket c; endpoint := endpoint c |}.

Definition set_socket (s : udp_socket) (c : Connection) : Connection :=
  {| receive_buffer := receive_buffer c; send_queue := send_queue c;
     socket := s; endpoint := endpoint c |}.

Fixpoint zeros (n : nat) : string :=
  match n with
  | O => EmptyString
  | S k => String Ascii.zero (zeros k)
  end.

(** The constructor: [receive_buffer.resize (1518)]. *)
Definition Connection_new (socket : udp_socket) (endpoint : udp_endpoint)
    : Connection :=
  {| receive_buffer := zeros 1518; send_queue := MessageQueue.empty_queue;
     socket := socket; endpoint := endpoint |}.

(** [void async_receive ()]: starts one receive into [receive_buffer],
    with [this->endpoint] as the sender out-parameter. *)
Definition async_receive (c : Connection) : Connection :=
  set_socket (async_receive_from (socket c)) c.

(** [void async_send ()]: pops first, then starts the send. *)
Definition async_send (c : Connection) : outcome Connection :=
  popped <- MessageQueue.pop (send_queue c) ;;
  let '(message, rest) := popped in
  Returns (set_socket (async_send_to message (endpoint c) (socket c))
                      (set_send_queue rest c)).

(** [void send (std::string message)] *)
Definition send (message : string) (c : Connection) : outcome Connection :=
  let '(was_empty, q) := MessageQueue.push message (send_queue c) in
  let c' := set_send_queue q c in
  if was_empty then async_send c' else Returns c'.

(** ** The process: the connection and the two console streams *)

Record process : Type := { conn : Connection; cout : string; cerr : string }.

Definition set_conn (c : Connection) (p : process) : process :=
  {| conn := c; cout := cout p; cerr := cerr p |}.

(** [std::endl] *)
Definition endl : string := String (ascii_of_nat 10) EmptyString.

(** The completion handler given to [async_receive_from]. *)
Definition receive_handler (ec : error_code) (bytes_received : nat)
    (p : process) : outcome process :=
  if ec_ok ec then
    let message := substring 0 bytes_received (receive_buffer (conn p)) in
    Returns {| conn := async_receive (conn p);
               cout := cout p ++ message ++ endl ++ "> ";
               cerr := cerr p |}
  else
    Returns {| conn := conn p;
               cout := cout p ++ "error receiving: " ++ ec_message ec ++ endl;
               cerr := cerr p |}.

(** The completion handler given to [async_send_to]. *)
Definition send_handler (ec : error_code) (bytes_sent : nat)
    (p : process) : outcome process :=
  if ec_ok ec then
    if negb (MessageQueue.empty (send_queue (conn p))) then
      c' <- async_send (conn p) ;;
      Returns (set_conn c' p)
    else Returns p
  else
    Returns {| conn := conn p;
               cout := cout p;
               cerr := cerr p ++ "error sending: " ++ ec_message ec ++ endl |}.

(** ** The event loop *)

(** What can happen to the connection once [main] has built it: the
    driver calls [send], or [io_context.poll ()] delivers the completion
    of an outstanding send or of the outstanding receive.  A send
    completion names the outstanding send it retires; a receive
    completion carries the datagram and the address it came from. *)
Inductive event : Type :=
| CallSend (message : string)
| SendCompletes (i : nat) (ec : error_code) (bytes_sent : nat)
| ReceiveCompletes (ec : error_code) (datagram : string)
    (sender : udp_endpoint).

Definition remove_nth {A : Type} (i : nat) (l : list A) : list A :=
  firstn i l ++ skipn (S i) l.

Definition retire_send (i : nat) (c : Connection) : Connection :=
  set_socket
    {| receives_outstanding := receives_outstanding (socket c);
       sends_outstanding := remove_nth i (sends_outstanding (socket c));
       wire := wire (socket c) |} c.

(** Number of bytes a receive stores: the datagram, cut to the buffer. *)
Definition bytes_stored (datagram buffer : string) : nat :=
  Nat.min (String.length datagram) (String.length buffer).

(** The buffer after a datagram was stored at its start. *)
Definition store_datagram (datagram buffer : string) : string :=
  let n := bytes_stored datagram buffer in
  (substring 0 n datagram
   ++ substring n (String.length buffer - n) buffer)%string.

(** What the completion of [async_receive_from] does before the handler
    runs.  On success the datagram is in the buffer and the sender
    out-parameter, which is [this->endpoint], holds the address the
    datagram came from.  On failure nothing is stored. *)
Definition retire_receive (k : nat) (ec : error_code) (datagram : string)
    (sender : udp_endpoint) (c : Connection) : Connection * nat :=
  let s := {| receives_outstanding := k;
              sends_outstanding := sends_outstanding (socket c);
              wire := wire (socket c) |} in
  if ec_ok ec then
    ({| receive_buffer := store_datagram datagram (receive_buffer c);
        send_queue := send_queue c;
        socket := s;
        endpoint := sender |},
     bytes_stored datagram (receive_buffer c))
  else (set_socket s c, 0).

(** One event.  [None]: the event cannot happen in this state (there is
    no such outstanding operation). *)
Definition deliver (ev : event) (p : process) : option (outcome process) :=
  match ev with
  | CallSend message =>
      Some (c' <- send message (conn p) ;; Returns (set_conn c' p))
  | SendCompletes i ec bytes_sent =>
      match nth_error (sends_outstanding (socket (conn p))) i with
      | Some _ =>
          Some (send_handler ec bytes_sent
                  (set_conn (retire_send i (conn p)) p))
      | None => None
      end
  | ReceiveCompletes ec datagram sender =>
      match receives_outstanding (socket (conn p)) with
      | S k =>
          let '(c', bytes_received) :=
            retire_receive k ec datagram sender (conn p) in
          Some (receive_handler ec bytes_received (set_conn c' p))
      | O => None
      end
  end.

(** A sequence of events, until one cannot happen or does not return. *)
Fixpoint run (evs : list event) (p : process) : option (outcome process) :=
  match evs with
  | [] => Some (Returns p)
  | ev :: rest =>
      match deliver ev p with
      | Some (Returns p') => run rest p'
      | other => other
      end
  end.

(** [main] up to the polling loop: the connection is built on the bound
    socket and [connection->async_receive ()] is called once. *)
Definition start (remote_endpoint : udp_endpoint) : process :=
  {| conn := async_receive (Connection_new bound_socket remote_endpoint);
     cout := EmptyString; cerr := EmptyString |}.

(** The payloads passed to [send] in a sequence of events, in order. *)
Fixpoint sends_of (evs : list event) : list string :=
  match evs with
  | [] => []
  | CallSend message :: rest => message :: sends_of rest
  | _ :: rest => sends_of rest
  end.

(** The payloads handed to [async_send_to] so far, in order. *)
Definition transmitted (p : process) : list string :=
  map so_payload (wire (socket (conn p))).

Definition in_flight (p : process) : nat :=
  List.length (sends_outstanding (socket (conn p))).

(** The address [this->endpoint] holds after a sequence of events. *)
Fixpoint last_sender (ep : udp_endpoint) (evs : list event) : udp_endpoint :=
  match evs with
  | [] => ep
  | ReceiveCompletes ec _ sender :: rest =>
      last_sender (if ec_ok ec then sender else ep) rest
  | _ :: rest => last_sender ep rest
  end.

Definition ok : error_code := {| ec_value := 0; ec_message := "Success" |}.

Definition tello : udp_endpoint := {| address := "192.168.10.1"; port := 8889 |}.

(** A successful completion of the send at the head of the outstanding
    sends. *)
Definition head_send_succeeds (ev : event) : Prop :=
  match ev with
  | SendCompletes 0 ec _ => ec_ok ec = true
  | _ => False
  end.


(** A socket with the given log of datagrams and nothing outstanding but
    the receives of [s]. *)
Definition wire_only (log : list send_op) (s : udp_socket) : udp_socket :=
  {| receives_outstanding := receives_outstanding s;
     sends_outstanding := [];
     wire := log |}.

(** The destinations of the sends started during a sequence of events
    that begins with an empty queue and [this->endpoint = ep]. *)
Fixpoint destinations (ep : udp_endpoint) (evs : list event)
    : list udp_endpoint :=
  match evs with
  | [] => []
  | CallSend _ :: rest => ep :: destinations ep rest
  | ReceiveCompletes ec _ sender :: rest =>
      destinations (if ec_ok ec then sender else ep) rest
  | SendCompletes _ _ _ :: rest => destinations ep rest
  end.

(** Every datagram received successfully came from [ep]. *)
Definition received_from (ep : udp_endpoint) (ev : event) : Prop :=
  match ev with
  | ReceiveCompletes ec _ sender => ec_ok ec = true -> sender = ep
  | _ => True
  end.

Definition is_receive_completion (ev : event) : bool :=
  match ev with
  | ReceiveCompletes _ _ _ => true
  | _ => false
  end.

Definition other_host : udp_endpoint :=
  {| address := "192.168.10.2"; port := 8889 |}.

(** ** Counting and collecting over a sequence of events *)

(** The number of send completions delivered. *)
Fixpoint send_completions (evs : list event) : nat :=
  match evs with
  | [] => 0
  | SendCompletes _ _ _ :: rest => S (send_completions rest)
  | _ :: rest => send_completions rest
  end.

(** The number of receive completions that reported an error. *)
Fixpoint failed_receives (evs : list event) : nat :=
  match evs with
  | [] => 0
  | ReceiveCompletes ec _ _ :: rest =>
      (if ec_ok ec then 0 else 1) + failed_receives rest
  | _ :: rest => failed_receives rest
  end.

(** What the receive handler writes to [std::cout] for one completion on
    a buffer of [size] bytes. *)
Definition console_line (size : nat) (ev : event) : string :=
  match ev with
  | ReceiveCompletes ec datagram _ =>
      if ec_ok ec then
        substring 0 (Nat.min (String.length datagram) size) datagram
        ++ endl ++ "> "
      else "error receiving: " ++ ec_message ec ++ endl
  | _ => EmptyString
  end.

Fixpoint console_of (size : nat) (evs : list event) : string :=
  match evs with
  | [] => EmptyString
  | ev :: rest => console_line size ev ++ console_of size rest
  end.

(** What the send handler writes to [std::cerr] for one completion. *)
Definition error_line (ev : event) : string :=
  match ev with
  | SendCompletes _ ec _ =>
      if ec_ok ec then EmptyString
      else "error sending: " ++ ec_message ec ++ endl
  | _ => EmptyString
  end.

Fixpoint errors_of (evs : list event) : string :=
  match evs with
  | [] => EmptyString
  | ev :: rest => error_line ev ++ errors_of rest
  end.

(** ** Sequences of queue operations *)

(** [push] of each message in turn. *)
Fixpoint push_all (messages : list string) (q : MessageQueue.t)
    : MessageQueue.t :=
  match messages with
  | [] => q
  | message :: rest => push_all rest (snd (MessageQueue.push message q))
  end.

(** [n] calls of [pop], collecting what they return. *)
Fixpoint pop_n (n : nat) (q : MessageQueue.t)
    : outcome (list string * MessageQueue.t) :=
  match n with
  | O => Returns ([], q)
  | S k =>
      popped <- MessageQueue.pop q ;;
      let '(message, q') := popped in
      later <- pop_n k q' ;;
      let '(messages, q'') := later in
      Returns (message :: messages, q'')
  end.

(** ** The joystick callback *)

(** [void joystick_callback (int jid, int event)], as a function of the
    value of [CONNECTED_JOYSTICK_ID] before the call; the two event
    codes come from the GLFW header.  The trace log lines are left out. *)
Definition joystick_callback (GLFW_CONNECTED GLFW_DISCONNECTED : Z)
    (jid event : Z) (CONNECTED_JOYSTICK_ID : Z) : Z :=
  if (event =? GLFW_CONNECTED)%Z then jid
  else if (event =? GLFW_DISCONNECTED)%Z then (-1)%Z
  else CONNECTED_JOYSTICK_ID.

(** The callbacks of a sequence of [(jid, event)] pairs, oldest first. *)
Fixpoint joystick_callbacks (GLFW_CONNECTED GLFW_DISCONNECTED : Z)
    (calls : list (Z * Z)) (CONNECTED_JOYSTICK_ID : Z) : Z :=
  match calls with
  | [] => CONNECTED_JOYSTICK_ID
  | (jid, event) :: rest =>
      joystick_callbacks GLFW_CONNECTED GLFW_DISCONNECTED rest
        (joystick_callback GLFW_CONNECTED GLFW_DISCONNECTED jid event
           CONNECTED_JOYSTICK_ID)
  end.

(** ** The polling loop of [main] *)

(** The part of [GLFWgamepadstate] the loop reads: the buttons A, B and
    X, and for the axes 0 to 3 the value
    [static_cast<int> (state.axes[i] * 100)]. *)
Record gamepad : Type := {
  button_a : Z;
  button_b : Z;
  button_x : Z;
  scaled_axis0 : Z;
  scaled_axis1 : Z;
  scaled_axis2 : Z;
  scaled_axis3 : Z
}.

(** [if (condition) connection->send (command)] *)
Definition send_when (condition : bool) (command : string) (c : Connection)
    : outcome Connection :=
  if condition then send command c else Returns c.

(** One iteration of the loop, from [glfwGetGamepadState] to the last
    [send]; [GLFW_PRESS] comes from the GLFW header.  The log lines and
    the sleep are left out; [io_context.poll ()] is the delivery of
    completion events. *)
Definition loop_body (GLFW_PRESS : Z) (state : gamepad) (c : Connection)
    : outcome Connection :=
  c1 <- send_when (button_a state =? GLFW_PRESS)%Z "command" c ;;
  c2 <- send_when (button_b state =? GLFW_PRESS)%Z "takeoff" c1 ;;
  c3 <- send_when (button_x state =? GLFW_PRESS)%Z "land" c2 ;;
  send (rc_command (scaled_axis0 state) (scaled_axis1 state)
                   (scaled_axis2 state) (scaled_axis3 state)) c3.

(** The payloads one iteration passes to [send], in order. *)
Definition loop_commands (GLFW_PRESS : Z) (state : gamepad) : list string :=
  (if (button_a state =? GLFW_PRESS)%Z then ["command"] else [])
  ++ (if (button_b state =? GLFW_PRESS)%Z then ["takeoff"] else [])
  ++ (if (button_x state =? GLFW_PRESS)%Z then ["land"] else [])
  ++ [rc_command (scaled_axis0 state) (scaled_axis1 state)
                 (scaled_axis2 state) (scaled_axis3 state)].

(** The events of a sequence of iterations: in each, the completions
    [io_context.poll ()] delivers, then the calls of [send]. *)
Fixpoint loop_events (GLFW_PRESS : Z)
    (iterations : list (list event * gamepad)) : list event :=
  match iterations with
  | [] => []
  | (polled, state) :: rest =>
      polled ++ map CallSend (loop_commands GLFW_PRESS state)
      ++ loop_events GLFW_PRESS rest
  end.

(** The integers from [lo], [n] of them. *)
Fixpoint z_range (lo : Z) (n : nat) : list Z :=
  match n with
  | O => []
  | S k => lo :: z_range (lo + 1)%Z k
  end.

(** Every character of a string passes a test. *)
Fixpoint string_forallb (f : ascii -> bool) (s : string) : bool :=
  match s with
  | EmptyString => true
  | String c rest => f c && string_forallb f rest
  end.

(** The characters of an rc command: the letters of [rc], the space, the
    minus sign and the decimal digits. *)
Definition rc_char (c : ascii) : bool :=
  negb (string_forallb (fun x => negb (Ascii.eqb x c)) "rc -0123456789").

(** ** Reading an rc command *)

(** The decimal numeral of an integer, written out independently of
    [std::format]: a minus sign for a negative value, then the digits of
    the magnitude, most significant first, without leading zeros. *)
Definition digit_char (d : Z) : ascii := ascii_of_nat (48 + Z.to_nat d).

Fixpoint magnitude_digits (fuel : nat) (n : Z) (less_significant : string)
    : string :=
  match fuel with
  | O => less_significant
  | S k =>
      let digits := String (digit_char (n mod 10)) less_significant in
      if (n / 10 =? 0)%Z then digits else magnitude_digits k (n / 10) digits
  end.

Definition decimal_numeral (v : Z) : string :=
  let magnitude :=
    magnitude_digits (S (Z.to_nat (Z.abs v))) (Z.abs v) EmptyString in
  if (v <? 0)%Z then String "-" magnitude else magnitude.

(** What a receiver of the datagram does: cut the text at the spaces and
    read a field as a decimal integer. *)
Fixpoint split_spaces (s : string) : list string :=
  match s with
  | EmptyString => [EmptyString]
  | String c rest =>
      if Ascii.eqb c " " then EmptyString :: split_spaces rest
      else match split_spaces rest with
           | word :: words => String c word :: words
           | [] => [String c EmptyString]
           end
  end.

Definition digit_value (c : ascii) : option Z :=
  let n := nat_of_ascii c in
  if Nat.leb 48 n && Nat.leb n 57 then Some (Z.of_nat (n - 48)) else None.

Fixpoint parse_digits (s : string) (acc : Z) : option Z :=
  match s with
  | EmptyString => Some acc
  | String c rest =>
      match digit_value c with
      | Some d => parse_digits rest (10 * acc + d)
      | None => None
      end
  end.

Definition parse_decimal (s : string) : option Z :=
  match s with
  | EmptyString => None
  | String c rest =>
      if Ascii.eqb c "-" then
        match rest with
        | EmptyString => None
        | _ => option_map Z.opp (parse_digits rest 0)
        end
      else parse_digits s 0
  end.

Definition no_space (c : ascii) : bool := negb (Ascii.eqb c " ").

(** * Properties *)

(** ** MessageQueue *)

Section QueueFacts.

Import MessageQueue.

Lemma empty_true_iff (q : t) : empty q = true <-> q = [].
Proof. destruct q; simpl; split; congruence. Qed.

Lemma empty_false_iff (q : t) : empty q = false <-> q <> [].
Proof. destruct q; simpl; split; congruence. Qed.

Lemma push_flag (message : string) (q : t) : fst (push message q) = empty q.
Proof. reflexivity. Qed.

Lemma push_queue (message : string) (q : t) :
  snd (push message q) = q ++ [message].
Proof. reflexivity. Qed.

Lemma pop_front (front : string) (rest : t) :
  pop (front :: rest) = Returns (front, rest).
Proof. reflexivity. Qed.

Lemma pop_returns_iff (q : t) : (exists r, pop q = Returns r) <-> q <> [].
Proof.
  destruct q as [|front rest]; simpl; split.
  - intros [r Hr]; discriminate.
  - intros H; now elim H.
  - discriminate.
  - intros _; now exists (front, rest).
Qed.

End QueueFacts.

(** C8.  [push] always returns, leaves the queue equal to the old queue
    with the payload added at the back, and its flag is [true] exactly
    when the queue was empty before the call, that is exactly when this
    call made an empty queue non-empty. *)
Theorem push_appends_and_reports_was_empty :
  forall (message : string) (q : MessageQueue.t),
    exists (flag : bool) (q' : MessageQueue.t),
      MessageQueue.push message q = (flag, q') /\
      q' = q ++ [message] /\
      (flag = true <-> q = []) /\
      (flag = true <-> MessageQueue.empty q = true /\ MessageQueue.empty q' = false).
Proof.
  intros message q.
  exists (MessageQueue.empty q), (q ++ [message]).
  split; [reflexivity|]. split; [reflexivity|].
  split; [apply empty_true_iff|].
  split.
  - intros H; split; [exact H|].
    apply empty_false_iff. intros E. now apply app_eq_nil in E as [_ E].
  - now intros [H _].
Qed.

Lemma push_appends_and_reports_was_empty_witness :
  exists (flag : bool) (q' : MessageQueue.t),
    MessageQueue.push "land" ["command"; "takeoff"] = (flag, q') /\
    q' = ["command"; "takeoff"] ++ ["land"] /\
    (flag = true <-> ["command"; "takeoff"] = []) /\
    (flag = true <->
     MessageQueue.empty ["command"; "takeoff"] = true /\
     MessageQueue.empty q' = false).
Proof.
  exact (push_appends_and_reports_was_empty "land" ["command"; "takeoff"]).
Defined.

(** C10.  Frame of the queue operations.  [push] makes the queue one
    longer, keeps every element that was there at its position and puts
    the payload last.  On a non-empty queue [pop] returns the front
    element and leaves exactly the elements behind it, in their order,
    one fewer than before. *)
Theorem queue_operations_frame :
  forall (message front : string) (q rest : MessageQueue.t),
    (let q' := snd (MessageQueue.push message q) in
     List.length q' = S (List.length q) /\
     firstn (List.length q) q' = q /\
     skipn (List.length q) q' = [message]) /\
    (MessageQueue.pop (front :: rest) = Returns (front, rest) /\
     S (List.length rest) = List.length (front :: rest) /\
     front :: rest = [front] ++ rest).
Proof.
  intros message front q rest. split.
  - cbv zeta. rewrite push_queue. repeat split.
    + rewrite length_app. simpl. lia.
    + rewrite firstn_app, Nat.sub_diag, firstn_all. simpl. apply app_nil_r.
    + rewrite skipn_app, Nat.sub_diag, skipn_all. reflexivity.
  - repeat split.
Qed.

(** C4, as the code has it.  [pop] makes no test for emptiness: on the
    empty queue it has undefined behaviour and signals nothing; it
    returns exactly on the non-empty queues, and then returns the front
    element and the rest. *)
Theorem pop_requires_non_empty :
  MessageQueue.pop MessageQueue.empty_queue = Undefined /\
  (forall q : MessageQueue.t,
     match q with
     | [] => MessageQueue.pop q = Undefined
     | front :: rest => MessageQueue.pop q = Returns (front, rest)
     end).
Proof.
  split; [reflexivity|]. intros [|front rest]; reflexivity.
Qed.

(** C4, as the specification states it, fails: on the empty queue [pop]
    does not signal an explicit error. *)
Lemma pop_empty_signals_no_error :
  ~ explicit_error (MessageQueue.pop MessageQueue.empty_queue).
Proof. simpl. exact (fun H => H). Qed.

(** ** The rc command *)

Lemma clamp_bounds (v lo hi : Z) : (lo <= hi -> lo <= clamp v lo hi <= hi)%Z.
Proof.
  intros H. unfold clamp.
  destruct (Z.ltb_spec v lo); [lia|].
  destruct (Z.ltb_spec hi v); lia.
Qed.

Lemma clamp_inside (v lo hi : Z) : (lo <= v <= hi -> clamp v lo hi = v)%Z.
Proof.
  intros H. unfold clamp.
  destruct (Z.ltb_spec v lo); [lia|].
  destruct (Z.ltb_spec hi v); lia.
Qed.

Lemma clamp_below (v lo hi : Z) : (v < lo -> clamp v lo hi = lo)%Z.
Proof. intros H. unfold clamp. destruct (Z.ltb_spec v lo); lia. Qed.

Lemma clamp_above (v lo hi : Z) : (lo <= hi < v -> clamp v lo hi = hi)%Z.
Proof.
  intros H. unfold clamp.
  destruct (Z.ltb_spec v lo); [lia|].
  destruct (Z.ltb_spec hi v); lia.
Qed.

(** ** The send path *)

Lemma async_send_front (c : Connection) (front : string) (rest : MessageQueue.t) :
  send_queue c = front :: rest ->
  async_send c =
  Returns (set_socket (async_send_to front (endpoint c) (socket c))
                      (set_send_queue rest c)).
Proof. intros H. unfold async_send. now rewrite H. Qed.

Lemma async_send_empty (c : Connection) :
  send_queue c = [] -> async_send c = Undefined.
Proof. intros H. unfold async_send. now rewrite H. Qed.

Lemma send_idle (message : string) (c : Connection) :
  send_queue c = [] ->
  send message c =
  Returns (set_socket (async_send_to message (endpoint c) (socket c))
                      (set_send_queue [] c)).
Proof. intros H. unfold send, MessageQueue.push. now rewrite H. Qed.

Lemma send_busy (message : string) (c : Connection) :
  send_queue c <> [] ->
  send message c = Returns (set_send_queue (send_queue c ++ [message]) c).
Proof.
  intros H. unfold send, MessageQueue.push.
  destruct (send_queue c); [now elim H | reflexivity].
Qed.

(** [send] always returns: it pops only what it has just pushed. *)
Lemma send_returns (message : string) (c : Connection) :
  exists c', send message c = Returns c'.
Proof.
  destruct (send_queue c) eqn:E.
  - rewrite send_idle by assumption. eauto.
  - rewrite send_busy by congruence. eauto.
Qed.

(** The send handler always returns: it pops only after [empty ()]
    answered [false]. *)
Lemma send_handler_returns (ec : error_code) (n : nat) (p : process) :
  exists p', send_handler ec n p = Returns p'.
Proof.
  unfold send_handler. destruct (ec_ok ec); [|eauto].
  destruct (send_queue (conn p)) as [|front rest] eqn:E; simpl; [eauto|].
  rewrite (async_send_front _ _ _ E). simpl. eauto.
Qed.

Lemma receive_handler_returns (ec : error_code) (n : nat) (p : process) :
  exists p', receive_handler ec n p = Returns p'.
Proof. unfold receive_handler. destruct (ec_ok ec); eauto. Qed.

(** No event reaches undefined behaviour or throws, in any state. *)
Lemma deliver_returns (ev : event) (p : process) (o : outcome process) :
  deliver ev p = Some o -> exists p', o = Returns p'.
Proof.
  destruct ev as [message | i ec n | ec datagram sender]; simpl.
  - destruct (send_returns message (conn p)) as [c' Hc]. rewrite Hc. simpl.
    intros [= <-]. eauto.
  - destruct (nth_error _ i); [|discriminate].
    intros [= <-].
    destruct (send_handler_returns ec n (set_conn (retire_send i (conn p)) p))
      as [p' Hp]. eauto.
  - destruct (receives_outstanding _) as [|k]; [discriminate|].
    destruct (retire_receive k ec datagram sender (conn p)) as [c' m].
    intros [= <-].
    destruct (receive_handler_returns ec m (set_conn c' p)) as [p' Hp]. eauto.
Qed.

Lemma run_returns (evs : list event) :
  forall (p : process) (o : outcome process),
    run evs p = Some o -> exists p', o = Returns p'.
Proof.
  induction evs as [|ev rest IH]; simpl; intros p o H.
  - injection H as <-. eauto.
  - destruct (deliver ev p) as [o1|] eqn:E; [|discriminate].
    destruct (deliver_returns _ _ _ E) as [p1 ->]. eauto.
Qed.

(** In particular no run of the actor calls [pop] on an empty queue. *)
Lemma run_never_undefined (evs : list event) (p : process) :
  run evs p <> Some Undefined.
Proof.
  intros H. destruct (run_returns _ _ _ H) as [p' Hp]. discriminate.
Qed.

Lemma run_app (evs1 evs2 : list event) :
  forall (p p1 : process),
    run evs1 p = Some (Returns p1) ->
    run (evs1 ++ evs2) p = run evs2 p1.
Proof.
  induction evs1 as [|ev rest IH]; simpl; intros p p1 H.
  - now injection H as <-.
  - destruct (deliver ev p) as [[p'| |]|]; try discriminate. eauto.
Qed.

Lemma run_cons_inv (ev : event) (evs : list event) (p p' : process) :
  run (ev :: evs) p = Some (Returns p') ->
  exists p1, deliver ev p = Some (Returns p1) /\ run evs p1 = Some (Returns p').
Proof.
  simpl. destruct (deliver ev p) as [[p1| |]|]; try discriminate. eauto.
Qed.

(** Order: whatever the event, the payloads handed to the socket followed
    by the payloads still queued are the same sequence as before,
    followed by the payload the event enqueued, if any. *)
Lemma deliver_order (ev : event) (p p' : process) :
  deliver ev p = Some (Returns p') ->
  transmitted p' ++ send_queue (conn p') =
  transmitted p ++ send_queue (conn p) ++ sends_of [ev].
Proof.
  unfold transmitted.
  destruct ev as [message | i ec n | ec datagram sender]; unfold deliver.
  - destruct (send_queue (conn p)) as [|front rest] eqn:E.
    + rewrite send_idle by assumption. simpl. intros [= <-]. simpl.
      rewrite map_app. simpl. now rewrite app_nil_r.
    + rewrite send_busy by congruence. simpl. intros [= <-]. simpl.
      now rewrite E.
  - destruct (nth_error _ i); [|discriminate].
    unfold send_handler. destruct (ec_ok ec).
    + destruct (send_queue (conn p)) as [|front rest] eqn:E.
      * simpl. rewrite E. simpl. intros [= <-]. simpl.
        now rewrite E, app_nil_r.
      * simpl. rewrite E. simpl.
        rewrite (async_send_front _ front rest) by (simpl; exact E).
        simpl. intros [= <-]. simpl.
        rewrite map_app, app_nil_r, <- app_assoc. reflexivity.
    + intros [= <-]. simpl. now rewrite app_nil_r.
  - destruct (receives_outstanding _) as [|k]; [discriminate|].
    unfold retire_receive, receive_handler.
    destruct (ec_ok ec); intros [= <-]; simpl; now rewrite app_nil_r.
Qed.

Lemma run_order (evs : list event) :
  forall (p p' : process),
    run evs p = Some (Returns p') ->
    transmitted p' ++ send_queue (conn p') =
    transmitted p ++ send_queue (conn p) ++ sends_of evs.
Proof.
  induction evs as [|ev rest IH]; intros p p' H.
  - simpl in H. injection H as <-. simpl. now rewrite app_nil_r.
  - apply run_cons_inv in H as (p1 & H1 & H2).
    rewrite (IH _ _ H2), app_assoc, (deliver_order _ _ _ H1).
    rewrite <- !app_assoc. f_equal. f_equal.
    destruct ev; reflexivity.
Qed.

(** When the queue is empty before an event it is empty after it: [send]
    pops what it pushed, and the handlers push nothing. *)
Lemma deliver_queue_empty (ev : event) (p p' : process) :
  send_queue (conn p) = [] ->
  deliver ev p = Some (Returns p') ->
  send_queue (conn p') = [].
Proof.
  intros E. destruct ev as [message | i ec n | ec datagram sender]; unfold deliver.
  - rewrite send_idle by assumption. simpl. now intros [= <-].
  - destruct (nth_error _ i); [|discriminate].
    unfold send_handler. destruct (ec_ok ec).
    + simpl. rewrite E. simpl. intros [= <-]. exact E.
    + intros [= <-]. exact E.
  - destruct (receives_outstanding _) as [|k]; [discriminate|].
    unfold retire_receive, receive_handler.
    destruct (ec_ok ec); intros [= <-]; exact E.
Qed.

Lemma run_queue_empty (evs : list event) :
  forall (p p' : process),
    send_queue (conn p) = [] ->
    run evs p = Some (Returns p') ->
    send_queue (conn p') = [].
Proof.
  induction evs as [|ev rest IH]; intros p p' E H.
  - simpl in H. now injection H as <-.
  - apply run_cons_inv in H as (p1 & H1 & H2).
    eauto using deliver_queue_empty.
Qed.

(** Between two events of a run of [main] the queue is empty, and the
    payloads handed to the socket are the payloads passed to [send]. *)
Lemma run_start_queue_empty (ep : udp_endpoint) (evs : list event) (p : process) :
  run evs (start ep) = Some (Returns p) -> send_queue (conn p) = [].
Proof. now apply run_queue_empty. Qed.

Lemma run_start_transmitted (ep : udp_endpoint) (evs : list event) (p : process) :
  run evs (start ep) = Some (Returns p) -> transmitted p = sends_of evs.
Proof.
  intros H. pose proof (run_order _ _ _ H) as Ho.
  rewrite (run_start_queue_empty _ _ _ H), app_nil_r in Ho.
  exact Ho.
Qed.

(** Calls of [send] on an empty queue, with no completion in between:
    every call starts its own send. *)
Lemma sends_back_to_back (ps : list string) :
  forall p : process,
    send_queue (conn p) = [] ->
    exists p',
      run (map CallSend ps) p = Some (Returns p') /\
      send_queue (conn p') = [] /\
      transmitted p' = transmitted p ++ ps /\
      map so_payload (sends_outstanding (socket (conn p'))) =
      map so_payload (sends_outstanding (socket (conn p))) ++ ps.
Proof.
  induction ps as [|message rest IH]; intros p E.
  - exists p. simpl. now rewrite !app_nil_r.
  - simpl. rewrite send_idle by assumption. simpl.
    match goal with |- context [run _ ?q] => destruct (IH q) as (p' & Hr & Hq & Ht & Hs) end;
      [reflexivity|].
    exists p'. split; [exact Hr|]. split; [exact Hq|].
    rewrite Ht, Hs. unfold transmitted. simpl.
    rewrite !map_app, <- !app_assoc. now split.
Qed.

(** The two branches of a send completion. *)
Lemma deliver_send_success (i : nat) (ec : error_code) (n : nat)
    (p : process) (op : send_op) :
  nth_error (sends_outstanding (socket (conn p))) i = Some op ->
  ec_ok ec = true ->
  deliver (SendCompletes i ec n) p =
  Some (let p1 := set_conn (retire_send i (conn p)) p in
        if MessageQueue.empty (send_queue (conn p)) then Returns p1
        else c' <- async_send (conn p1) ;; Returns (set_conn c' p1)).
Proof.
  intros Hn He. unfold deliver. rewrite Hn. unfold send_handler. rewrite He.
  simpl. now destruct (MessageQueue.empty (send_queue (conn p))).
Qed.

Lemma deliver_send_failure (i : nat) (ec : error_code) (n : nat)
    (p : process) (op : send_op) :
  nth_error (sends_outstanding (socket (conn p))) i = Some op ->
  ec_ok ec = false ->
  deliver (SendCompletes i ec n) p =
  Some (Returns
          {| conn := retire_send i (conn p);
             cout := cout p;
             cerr := (cerr p ++ "error sending: " ++ ec_message ec ++ endl)%string |}).
Proof.
  intros Hn He. unfold deliver. rewrite Hn. unfold send_handler. now rewrite He.
Qed.

(** The drain chain: started on a queue of [n] payloads with no send
    outstanding, [async_send] followed by [n] successful completions
    hands the queued payloads to the socket in queue order and leaves
    the queue empty and no send outstanding. *)
Lemma drain_chain (rest : MessageQueue.t) :
  forall (front : string) (p : process) (completions : list event),
    send_queue (conn p) = front :: rest ->
    sends_outstanding (socket (conn p)) = [] ->
    Forall head_send_succeeds completions ->
    List.length completions = S (List.length rest) ->
    exists (c' : Connection) (p' : process),
      async_send (conn p) = Returns c' /\
      run completions (set_conn c' p) = Some (Returns p') /\
      transmitted p' = transmitted p ++ front :: rest /\
      send_queue (conn p') = [] /\
      in_flight p' = 0.
Proof.
  induction rest as [|second rest IH]; intros front p completions Eq Eo Hc Hl.
  - destruct completions as [|ev [|? ?]]; try discriminate.
    inversion Hc as [|? ? Hev _]; subst.
    destruct ev as [| [|i] ec n |]; try contradiction. simpl in Hev.
    rewrite (async_send_front _ _ _ Eq).
    set (c1 := set_socket _ _).
    exists c1, (set_conn (retire_send 0 c1) p). split; [reflexivity|].
    split.
    + unfold run.
      erewrite deliver_send_success;
        [reflexivity | subst c1; simpl; rewrite Eo; reflexivity | exact Hev].
    + subst c1. unfold transmitted, in_flight. simpl.
      rewrite Eo, map_app. now repeat split.
  - destruct completions as [|ev completions]; [discriminate|].
    inversion Hc as [|? ? Hev Hc']; subst.
    destruct ev as [| [|i] ec n |]; try contradiction. simpl in Hev.
    rewrite (async_send_front _ _ _ Eq).
    set (c1 := set_socket _ _).
    set (p1 := set_conn (retire_send 0 c1) p).
    destruct (IH second p1 completions) as (c2 & p2 & Ha & Hr & Ht & Hq & Hf).
    + reflexivity.
    + subst p1 c1. simpl. now rewrite Eo.
    + exact Hc'.
    + simpl in Hl. lia.
    + exists c1, p2. split; [reflexivity|].
      split.
      * assert (Hd : deliver (SendCompletes 0 ec n) (set_conn c1 p)
                     = Some (Returns (set_conn c2 p1))).
        { erewrite deliver_send_success;
            [| subst c1; simpl; rewrite Eo; reflexivity | exact Hev].
          cbv zeta.
          change (conn (set_conn (retire_send 0 (conn (set_conn c1 p)))
                                 (set_conn c1 p)))
            with (conn p1).
          rewrite Ha. reflexivity. }
        change (run (SendCompletes 0 ec n :: completions) (set_conn c1 p))
          with (match deliver (SendCompletes 0 ec n) (set_conn c1 p) with
                | Some (Returns q) => run completions q
                | other => other
                end).
        rewrite Hd. exact Hr.
      * split; [|now split].
        rewrite Ht. subst p1 c1. unfold transmitted. simpl.
        rewrite map_app, <- app_assoc. reflexivity.
Qed.

(** C1.  Order preservation.  Payloads passed to [send] one after the
    other, before any completion is delivered, are handed to the socket
    in exactly that order.  In any run from any state, the payloads
    handed to the socket followed by the queued ones keep the order in
    which they were queued and then passed to [send].  A drain chain
    started on a non-empty queue with nothing outstanding pops the front,
    starts its send, and under successful completions hands the whole
    queue to the socket in queue order. *)
Theorem sends_transmitted_in_order :
  (forall (ep : udp_endpoint) (ps : list string),
     exists p : process,
       run (map CallSend ps) (start ep) = Some (Returns p) /\
       transmitted p = ps /\
       send_queue (conn p) = []) /\
  (forall (evs : list event) (p p' : process),
     run evs p = Some (Returns p') ->
     transmitted p' ++ send_queue (conn p') =
     transmitted p ++ send_queue (conn p) ++ sends_of evs) /\
  (forall (front : string) (rest : MessageQueue.t) (p : process)
          (completions : list event),
     send_queue (conn p) = front :: rest ->
     sends_outstanding (socket (conn p)) = [] ->
     Forall head_send_succeeds completions ->
     List.length completions = S (List.length rest) ->
     exists (c' : Connection) (p' : process),
       async_send (conn p) = Returns c' /\
       send_queue c' = rest /\
       wire (socket c') =
       wire (socket (conn p)) ++
       [{| so_payload := front; so_destination := endpoint (conn p) |}] /\
       run completions (set_conn c' p) = Some (Returns p') /\
       transmitted p' = transmitted p ++ front :: rest /\
       send_queue (conn p') = [] /\
       in_flight p' = 0).
Proof.
  split; [|split].
  - intros ep ps.
    destruct (sends_back_to_back ps (start ep) eq_refl)
      as (p & Hr & Hq & Ht & _).
    exists p. now repeat split.
  - intros evs p p'. apply run_order.
  - intros front rest p completions Eq Eo Hc Hl.
    destruct (drain_chain rest front p completions Eq Eo Hc Hl)
      as (c' & p' & Ha & Hr & Ht & Hq & Hf).
    exists c', p'.
    rewrite (async_send_front _ _ _ Eq) in Ha. injection Ha as <-.
    split; [apply (async_send_front _ _ _ Eq)|].
    now repeat split.
Qed.

Lemma sends_transmitted_in_order_witness :
  (exists p : process,
     run (map CallSend ["command"; "takeoff"; "land"]) (start tello)
     = Some (Returns p) /\
     transmitted p = ["command"; "takeoff"; "land"]) /\
  (let evs := [CallSend "command"; SendCompletes 0 ok 7; CallSend "land"] in
   let p' := set_conn
               (set_socket
                  (async_send_to "land" tello
                     (wire_only [{| so_payload := "command";
                                    so_destination := tello |}]
                        (socket (conn (start tello)))))
                  (conn (start tello)))
               (start tello) in
   run evs (start tello) = Some (Returns p') /\
   transmitted p' ++ send_queue (conn p') = ["command"; "land"]) /\
  (let p := set_conn (set_send_queue ["takeoff"; "land"] (conn (start tello)))
                     (start tello) in
   exists p' : process,
     (c' <- async_send (conn p) ;;
      match run (repeat (SendCompletes 0 ok 0) 2) (set_conn c' p) with
      | Some o => o
      | None => Undefined
      end) = Returns p' /\
     transmitted p' = ["takeoff"; "land"] /\ in_flight p' = 0).
Proof.
  destruct sends_transmitted_in_order as (H1 & H2 & H3).
  split; [|split].
  - destruct (H1 tello ["command"; "takeoff"; "land"]) as (p & Hr & Ht & _).
    exists p. now split.
  - cbv zeta. split; [reflexivity|].
    match goal with
    | |- transmitted ?q ++ _ = _ =>
        exact (H2 [CallSend "command"; SendCompletes 0 ok 7; CallSend "land"]
                  (start tello) q eq_refl)
    end.
  - cbv zeta.
    destruct (H3 "takeoff" ["land"]
                 (set_conn (set_send_queue ["takeoff"; "land"] (conn (start tello)))
                           (start tello))
                 (repeat (SendCompletes 0 ok 0) 2))
      as (c' & p' & Ha & _ & _ & Hr & Ht & _ & Hf).
    + reflexivity.
    + reflexivity.
    + repeat constructor.
    + reflexivity.
    + exists p'. rewrite Ha. unfold bind. rewrite Hr. now repeat split.
Defined.

(** C2, evaluated on the code.  Two calls of [send] with no completion
    delivered in between leave two sends outstanding on the socket: the
    first call popped its payload when it started the send, so the
    second call finds the queue empty and starts a send of its own.  In
    general [n] such calls leave [n] sends outstanding. *)
Theorem back_to_back_sends_all_outstanding :
  (exists p : process,
     run [CallSend "command"; CallSend "rc 0 0 0 0"] (start tello)
     = Some (Returns p) /\
     in_flight p = 2 /\
     map so_payload (sends_outstanding (socket (conn p)))
     = ["command"; "rc 0 0 0 0"]) /\
  (forall (ep : udp_endpoint) (ps : list string),
     exists p : process,
       run (map CallSend ps) (start ep) = Some (Returns p) /\
       in_flight p = List.length ps).
Proof.
  split.
  - eexists. split; [vm_compute; reflexivity|]. now split.
  - intros ep ps.
    destruct (sends_back_to_back ps (start ep) eq_refl)
      as (p & Hr & _ & _ & Hs).
    exists p. split; [exact Hr|].
    unfold in_flight. rewrite <- (length_map so_payload), Hs.
    simpl. reflexivity.
Qed.

(** ** Send failures *)




(** C6.  A send completion that reports failure writes the error to
    [std::cerr] and does nothing else: the queue is as it was (the
    failed payload is not put back), the log of datagrams handed to the
    socket is as it was (no retry, no further [async_send]), and the
    completed operation is gone from the outstanding sends.  Whatever
    happens afterwards, the datagrams handed to the socket followed by
    the queue are the earlier ones followed by the payloads passed to
    [send] since: every enqueued payload is handed to the socket at most
    once. *)
Theorem send_failure_ends_chain :
  forall (p : process) (i : nat) (op : send_op) (ec : error_code) (n : nat),
    nth_error (sends_outstanding (socket (conn p))) i = Some op ->
    ec_ok ec = false ->
    exists p' : process,
      deliver (SendCompletes i ec n) p = Some (Returns p') /\
      cerr p' = (cerr p ++ "error sending: " ++ ec_message ec ++ endl)%string /\
      cout p' = cout p /\
      send_queue (conn p') = send_queue (conn p) /\
      wire (socket (conn p')) = wire (socket (conn p)) /\
      sends_outstanding (socket (conn p')) =
      remove_nth i (sends_outstanding (socket (conn p))) /\
      (forall (evs : list event) (p'' : process),
         run evs p' = Some (Returns p'') ->
         transmitted p'' ++ send_queue (conn p'') =
         transmitted p ++ send_queue (conn p) ++ sends_of evs).
Proof.
  intros p i op ec n Hn He.
  eexists. split; [apply (deliver_send_failure _ _ _ _ _ Hn He)|].
  simpl. repeat split.
  intros evs p'' H. apply run_order in H. exact H.
Qed.

Lemma send_failure_ends_chain_witness :
  let refused := {| ec_value := 111; ec_message := "Connection refused" |} in
  let p := set_conn (set_socket (async_send_to "command" tello bound_socket)
                                (set_send_queue ["takeoff"]
                                   (Connection_new bound_socket tello)))
                    (start tello) in
  exists p' : process,
    deliver (SendCompletes 0 refused 0) p = Some (Returns p') /\
    cerr p' = ("error sending: Connection refused" ++ endl)%string /\
    send_queue (conn p') = ["takeoff"] /\
    transmitted p' = ["command"] /\
    in_flight p' = 0.
Proof.
  cbv zeta.
  destruct (send_failure_ends_chain
              (set_conn (set_socket (async_send_to "command" tello bound_socket)
                                    (set_send_queue ["takeoff"]
                                       (Connection_new bound_socket tello)))
                        (start tello))
              0 {| so_payload := "command"; so_destination := tello |}
              {| ec_value := 111; ec_message := "Connection refused" |} 0
              eq_refl eq_refl)
    as (p' & Hd & He & _ & Hq & Hw & Ho & _).
  exists p'. split; [exact Hd|]. split; [exact He|]. split; [exact Hq|].
  unfold transmitted, in_flight. rewrite Hw, Ho. now split.
Defined.



(** ** The remote endpoint *)

Lemma deliver_endpoint (ev : event) (p p' : process) :
  deliver ev p = Some (Returns p') ->
  endpoint (conn p') = last_sender (endpoint (conn p)) [ev].
Proof.
  destruct ev as [message | i ec n | ec datagram sender]; unfold deliver.
  - destruct (send_queue (conn p)) as [|front rest] eqn:E.
    + rewrite send_idle by assumption. simpl. now intros [= <-].
    + rewrite send_busy by congruence. simpl. now intros [= <-].
  - destruct (nth_error _ i) as [op|] eqn:Hn; [|discriminate].
    unfold send_handler. destruct (ec_ok ec).
    + destruct (send_queue (conn p)) as [|front rest] eqn:E; simpl; rewrite E; simpl.
      * now intros [= <-].
      * rewrite (async_send_front _ front rest) by exact E. simpl.
        now intros [= <-].
    + now intros [= <-].
  - destruct (receives_outstanding _) as [|k]; [discriminate|].
    unfold retire_receive, receive_handler. simpl.
    destruct (ec_ok ec); now intros [= <-].
Qed.

Lemma run_endpoint (evs : list event) :
  forall (p p' : process),
    run evs p = Some (Returns p') ->
    endpoint (conn p') = last_sender (endpoint (conn p)) evs.
Proof.
  induction evs as [|ev rest IH]; intros p p' H.
  - simpl in H. now injection H as <-.
  - apply run_cons_inv in H as (p1 & H1 & H2).
    rewrite (IH _ _ H2), (deliver_endpoint _ _ _ H1).
    destruct ev; reflexivity.
Qed.

Lemma deliver_destinations (ev : event) (p p' : process) :
  send_queue (conn p) = [] ->
  deliver ev p = Some (Returns p') ->
  map so_destination (wire (socket (conn p'))) =
  map so_destination (wire (socket (conn p)))
  ++ destinations (endpoint (conn p)) [ev].
Proof.
  intros E.
  destruct ev as [message | i ec n | ec datagram sender]; unfold deliver.
  - rewrite send_idle by assumption. simpl. intros [= <-]. simpl.
    now rewrite map_app.
  - destruct (nth_error _ i) as [op|] eqn:Hn; [|discriminate].
    unfold send_handler. destruct (ec_ok ec).
    + simpl. rewrite E. simpl. intros [= <-]. simpl. now rewrite app_nil_r.
    + intros [= <-]. simpl. now rewrite app_nil_r.
  - destruct (receives_outstanding _) as [|k]; [discriminate|].
    unfold retire_receive, receive_handler. simpl.
    destruct (ec_ok ec); intros [= <-]; simpl; now rewrite app_nil_r.
Qed.

Lemma destinations_cons (ep : udp_endpoint) (ev : event) (rest : list event) :
  destinations ep (ev :: rest) =
  destinations ep [ev] ++ destinations (last_sender ep [ev]) rest.
Proof. destruct ev as [message | i ec n | ec datagram sender]; reflexivity. Qed.

Lemma run_destinations (evs : list event) :
  forall (p p' : process),
    send_queue (conn p) = [] ->
    run evs p = Some (Returns p') ->
    map so_destination (wire (socket (conn p'))) =
    map so_destination (wire (socket (conn p)))
    ++ destinations (endpoint (conn p)) evs.
Proof.
  induction evs as [|ev rest IH]; intros p p' E H.
  - simpl in H. injection H as <-. simpl. now rewrite app_nil_r.
  - apply run_cons_inv in H as (p1 & H1 & H2).
    rewrite (IH _ _ (deliver_queue_empty _ _ _ E H1) H2).
    rewrite (deliver_destinations _ _ _ E H1), (deliver_endpoint _ _ _ H1).
    rewrite <- app_assoc. f_equal. symmetry. apply destinations_cons.
Qed.

Lemma last_sender_fixed (ep : udp_endpoint) (evs : list event) :
  Forall (received_from ep) evs -> last_sender ep evs = ep.
Proof.
  induction 1 as [|ev rest Hev _ IH]; [reflexivity|].
  destruct ev as [message | i ec n | ec datagram sender]; simpl; trivial.
  simpl in Hev. destruct (ec_ok ec); [rewrite Hev by reflexivity|]; exact IH.
Qed.

Lemma destinations_fixed (ep : udp_endpoint) (evs : list event) :
  Forall (received_from ep) evs ->
  Forall (fun d => d = ep) (destinations ep evs).
Proof.
  induction 1 as [|ev rest Hev _ IH]; [constructor|].
  destruct ev as [message | i ec n | ec datagram sender]; simpl; auto.
  simpl in Hev. destruct (ec_ok ec); [rewrite Hev by reflexivity|]; exact IH.
Qed.

(** C3, as the code has it.  No call of [send] and no send completion
    changes [this->endpoint], but it is the sender out-parameter of
    [async_receive_from]: after a run of [main] it holds the address the
    last successfully received datagram came from (the constructor's
    value if there was none), and every send went to the value it held
    when the send was started.  It stays the constructor's value as long
    as every datagram received comes from that address. *)
Theorem endpoint_follows_last_sender :
  forall (ep : udp_endpoint) (evs : list event) (p : process),
    run evs (start ep) = Some (Returns p) ->
    endpoint (conn p) = last_sender ep evs /\
    map so_destination (wire (socket (conn p))) = destinations ep evs /\
    (Forall (received_from ep) evs ->
     endpoint (conn p) = ep /\
     Forall (fun op => so_destination op = ep) (wire (socket (conn p)))) /\
    (forall (ev : event) (p' : process),
       is_receive_completion ev = false ->
       deliver ev p = Some (Returns p') ->
       endpoint (conn p') = endpoint (conn p)).
Proof.
  intros ep evs p H.
  pose proof (run_endpoint _ _ _ H) as He.
  pose proof (run_destinations evs (start ep) p eq_refl H) as Hd.
  simpl in He, Hd. repeat split; trivial.
  - rewrite He. now apply last_sender_fixed.
  - apply Forall_map with (f := so_destination) (P := fun d => d = ep).
    rewrite Hd. now apply destinations_fixed.
  - intros ev p' Hev Hdl. rewrite (deliver_endpoint _ _ _ Hdl).
    destruct ev; [reflexivity | reflexivity | discriminate].
Qed.

Lemma endpoint_follows_last_sender_witness :
  exists p : process,
    run [CallSend "command"; ReceiveCompletes ok "ok" other_host; CallSend "land"]
        (start tello) = Some (Returns p) /\
    endpoint (conn p) = other_host /\
    map so_destination (wire (socket (conn p))) = [tello; other_host].
Proof.
  eexists. split; [vm_compute; reflexivity|].
  match goal with
  | |- endpoint (conn ?q) = _ /\ _ =>
      destruct (endpoint_follows_last_sender tello
                  [CallSend "command"; ReceiveCompletes ok "ok" other_host;
                   CallSend "land"] q eq_refl) as (He & Hd & _ & _)
  end.
  split; [exact He | exact Hd].
Defined.

(** C3, as the specification states it, fails: after a datagram from
    another host has been received, [this->endpoint] is that host, and
    the next payload is sent there. *)
Lemma endpoint_not_immutable :
  ~ (forall (ep : udp_endpoint) (evs : list event) (p : process),
       run evs (start ep) = Some (Returns p) ->
       endpoint (conn p) = ep /\
       Forall (fun op => so_destination op = ep) (wire (socket (conn p)))).
Proof.
  intros H.
  assert (exists p : process,
            run [ReceiveCompletes ok "ok" other_host; CallSend "land"]
                (start tello) = Some (Returns p) /\
            endpoint (conn p) = other_host) as (p & Hr & He)
    by (eexists; split; vm_compute; reflexivity).
  destruct (H _ _ _ Hr) as [He' _].
  rewrite He in He'. discriminate.
Qed.

(** ** The receive path *)

Lemma length_substring (s : string) :
  forall n m : nat,
    String.length (substring n m s) = Nat.min m (String.length s - n).
Proof.
  induction s as [|c s IH]; intros [|n] [|m]; simpl; trivial;
    rewrite IH; rewrite ?Nat.sub_0_r; reflexivity.
Qed.

Lemma length_string_append (a b : string) :
  String.length (a ++ b) = String.length a + String.length b.
Proof. induction a as [|c a IH]; simpl; [reflexivity | now rewrite IH]. Qed.

Lemma substring_prefix_append (a b : string) :
  substring 0 (String.length a) (a ++ b) = a.
Proof. induction a as [|c a IH]; simpl; [now destruct b | now rewrite IH]. Qed.

Lemma bytes_stored_le (datagram buffer : string) :
  bytes_stored datagram buffer <= String.length datagram /\
  bytes_stored datagram buffer <= String.length buffer.
Proof. unfold bytes_stored. lia. Qed.

(** A receive keeps the size of the buffer and puts the first bytes of
    the datagram at its start. *)
Lemma length_store_datagram (datagram buffer : string) :
  String.length (store_datagram datagram buffer) = String.length buffer.
Proof.
  unfold store_datagram.
  rewrite length_string_append, !length_substring.
  pose proof (bytes_stored_le datagram buffer). lia.
Qed.

Lemma store_datagram_prefix (datagram buffer : string) :
  substring 0 (bytes_stored datagram buffer) (store_datagram datagram buffer)
  = substring 0 (bytes_stored datagram buffer) datagram.
Proof.
  unfold store_datagram.
  set (n := bytes_stored datagram buffer).
  assert (Hn : String.length (substring 0 n datagram) = n).
  { rewrite length_substring. pose proof (bytes_stored_le datagram buffer).
    fold n in H. lia. }
  rewrite <- Hn at 1. apply substring_prefix_append.
Qed.

(** Once no receive is outstanding none is started again, and nothing
    more is written to [std::cout]. *)
Lemma deliver_not_listening (ev : event) (p p' : process) :
  receives_outstanding (socket (conn p)) = 0 ->
  deliver ev p = Some (Returns p') ->
  receives_outstanding (socket (conn p')) = 0 /\ cout p' = cout p.
Proof.
  intros Hz.
  destruct ev as [message | i ec n | ec datagram sender]; unfold deliver.
  - destruct (send_queue (conn p)) as [|front rest] eqn:E.
    + rewrite send_idle by assumption. simpl. intros [= <-]. now split.
    + rewrite send_busy by congruence. simpl. intros [= <-]. now split.
  - destruct (nth_error _ i) as [op|] eqn:Hn; [|discriminate].
    unfold send_handler. destruct (ec_ok ec).
    + destruct (send_queue (conn p)) as [|front rest] eqn:E; simpl; rewrite E; simpl.
      * intros [= <-]. now split.
      * rewrite (async_send_front _ front rest) by exact E. simpl.
        intros [= <-]. now split.
    + intros [= <-]. now split.
  - now rewrite Hz.
Qed.

Lemma run_not_listening (evs : list event) :
  forall (p p' : process),
    receives_outstanding (socket (conn p)) = 0 ->
    run evs p = Some (Returns p') ->
    receives_outstanding (socket (conn p')) = 0 /\ cout p' = cout p.
Proof.
  induction evs as [|ev rest IH]; intros p p' Hz H.
  - simpl in H. injection H as <-. now split.
  - apply run_cons_inv in H as (p1 & H1 & H2).
    destruct (deliver_not_listening _ _ _ Hz H1) as [Hz1 Ho1].
    destruct (IH _ _ Hz1 H2) as [Hz2 Ho2].
    split; congruence.
Qed.

(** C5.  A receive completion.  On success with [n] bytes the handler
    writes the first [n] bytes of the receive buffer, which are the
    first [n] bytes of the datagram, to [std::cout] (followed by a line
    end and the prompt) and starts a new receive, whatever the datagram:
    as many receives are outstanding as before.  On failure it writes
    the error to [std::cout] and starts no receive; when that was the
    only outstanding receive, no later event starts one or writes to
    [std::cout] again. *)
Theorem receive_completion_delivers_and_rearms :
  forall (p : process) (k : nat) (ec : error_code) (datagram : string)
         (sender : udp_endpoint),
    receives_outstanding (socket (conn p)) = S k ->
    exists p' : process,
      deliver (ReceiveCompletes ec datagram sender) p = Some (Returns p') /\
      (ec_ok ec = true ->
       let n := bytes_stored datagram (receive_buffer (conn p)) in
       let message := substring 0 n (receive_buffer (conn p')) in
       cout p' = (cout p ++ message ++ endl ++ "> ")%string /\
       message = substring 0 n datagram /\
       String.length message = n /\
       cerr p' = cerr p /\
       receives_outstanding (socket (conn p')) = S k) /\
      (ec_ok ec = false ->
       cout p' = (cout p ++ "error receiving: " ++ ec_message ec ++ endl)%string /\
       cerr p' = cerr p /\
       receives_outstanding (socket (conn p')) = k /\
       (k = 0 ->
        forall (evs : list event) (p'' : process),
          run evs p' = Some (Returns p'') ->
          receives_outstanding (socket (conn p'')) = 0 /\ cout p'' = cout p')).
Proof.
  intros p k ec datagram sender Hk.
  unfold deliver. rewrite Hk. unfold retire_receive, receive_handler.
  destruct (ec_ok ec) eqn:He; eexists; (split; [reflexivity|]); split;
    try discriminate; intros _; simpl.
  - rewrite store_datagram_prefix. repeat split.
    rewrite length_substring.
    pose proof (bytes_stored_le datagram (receive_buffer (conn p))). lia.
  - do 3 (split; [reflexivity|]).
    intros -> evs p'' Hr. now apply run_not_listening in Hr.
Qed.

Lemma receive_completion_delivers_and_rearms_witness :
  let reset := {| ec_value := 104; ec_message := "Connection reset by peer" |} in
  (exists p' : process,
     deliver (ReceiveCompletes ok "ok" tello) (start tello) = Some (Returns p') /\
     cout p' = ("ok" ++ endl ++ "> ")%string /\
     receives_outstanding (socket (conn p')) = 1) /\
  (exists p' : process,
     deliver (ReceiveCompletes reset "" tello) (start tello) = Some (Returns p') /\
     cout p' = ("error receiving: Connection reset by peer" ++ endl)%string /\
     receives_outstanding (socket (conn p')) = 0 /\
     forall p'' : process,
       run [CallSend "land"] p' = Some (Returns p'') ->
       receives_outstanding (socket (conn p'')) = 0).
Proof.
  cbv zeta. split.
  - destruct (receive_completion_delivers_and_rearms
                (start tello) 0 ok "ok" tello eq_refl)
      as (p' & Hd & Hs & _).
    destruct (Hs eq_refl) as (Ho & Hm & _ & _ & Hr).
    exists p'. split; [exact Hd|]. split; [|exact Hr].
    cbv zeta in Ho, Hm. rewrite Ho, Hm. reflexivity.
  - destruct (receive_completion_delivers_and_rearms
                (start tello) 0
                {| ec_value := 104; ec_message := "Connection reset by peer" |}
                "" tello eq_refl)
      as (p' & Hd & _ & Hf).
    destruct (Hf eq_refl) as (Ho & _ & Hr & Hn).
    exists p'. split; [exact Hd|]. split; [exact Ho|]. split; [exact Hr|].
    intros p'' Hrun. exact (proj1 (Hn eq_refl _ _ Hrun)).
Defined.

(** * Further properties of the code *)

(** ** The queue as a FIFO *)

Lemma push_all_app (messages : list string) :
  forall q : MessageQueue.t, push_all messages q = q ++ messages.
Proof.
  induction messages as [|message rest IH]; intros q; simpl.
  - now rewrite app_nil_r.
  - rewrite IH, <- app_assoc. reflexivity.
Qed.

Lemma pop_n_firstn (n : nat) :
  forall q : MessageQueue.t,
    n <= List.length q ->
    pop_n n q = Returns (firstn n q, skipn n q).
Proof.
  induction n as [|n IH]; intros q Hn; [reflexivity|].
  destruct q as [|front rest]; simpl in Hn; [lia|].
  simpl. rewrite IH by lia. reflexivity.
Qed.

Lemma pop_n_beyond (n : nat) :
  forall q : MessageQueue.t, List.length q < n -> pop_n n q = Undefined.
Proof.
  induction n as [|n IH]; intros q Hn; [lia|].
  destruct q as [|front rest]; [reflexivity|].
  simpl in Hn. simpl. rewrite IH by lia. reflexivity.
Qed.

(** First in, first out.  After the messages have been pushed, as many
    calls of [pop] as there are elements return the old elements and
    then the pushed messages, in the order they went in, and leave the
    queue empty; fewer calls return that many from the front; one call
    more has undefined behaviour.  [empty ()] answers [false] exactly
    when [pop] returns. *)
Theorem queue_is_fifo :
  forall (q : MessageQueue.t) (messages : list string),
    let q' := push_all messages q in
    pop_n (List.length q + List.length messages) q'
    = Returns (q ++ messages, []) /\
    (forall n : nat,
       n <= List.length q + List.length messages ->
       pop_n n q' = Returns (firstn n (q ++ messages), skipn n (q ++ messages))) /\
    pop_n (S (List.length q + List.length messages)) q' = Undefined /\
    (MessageQueue.empty q' = false <-> exists r, MessageQueue.pop q' = Returns r).
Proof.
  intros q messages. cbv zeta. rewrite push_all_app.
  assert (Hl : List.length (q ++ messages)
               = List.length q + List.length messages) by apply length_app.
  repeat split.
  - rewrite pop_n_firstn by lia.
    rewrite <- Hl, firstn_all, skipn_all. reflexivity.
  - intros n Hn. apply pop_n_firstn. lia.
  - apply pop_n_beyond. lia.
  - intros H. apply pop_returns_iff. now apply empty_false_iff.
  - intros H. apply empty_false_iff. now apply pop_returns_iff.
Qed.

Lemma queue_is_fifo_witness :
  pop_n 2 (push_all ["takeoff"; "land"] ["command"])
  = Returns (["command"; "takeoff"], ["land"]).
Proof.
  exact (proj1 (proj2 (queue_is_fifo ["command"] ["takeoff"; "land"]))
               2 (le_S _ _ (le_n 2))).
Defined.

(** ** Safety of the actor *)

(** In no state does a call of [send] or a completion handler call [pop]
    on an empty queue: every call of [send] returns a connection, every
    event that can happen returns a state, and a run of events ends
    neither in undefined behaviour nor in an exception. *)
Theorem actor_never_pops_empty_queue :
  (forall (message : string) (c : Connection),
     exists c', send message c = Returns c') /\
  (forall (ev : event) (p : process) (o : outcome process),
     deliver ev p = Some o -> exists p', o = Returns p') /\
  (forall (evs : list event) (p : process),
     run evs p <> Some Undefined /\
     forall what : string, run evs p <> Some (Throws what)).
Proof.
  split; [exact send_returns|]. split; [exact deliver_returns|].
  intros evs p. split.
  - intros H. destruct (run_returns _ _ _ H) as [p' Hp]. discriminate.
  - intros what H. destruct (run_returns _ _ _ H) as [p' Hp]. discriminate.
Qed.

Lemma actor_never_pops_empty_queue_witness :
  exists p' : process,
    Returns (set_conn (set_socket (async_send_to "land" tello
                                     (socket (conn (start tello))))
                                  (conn (start tello)))
                      (start tello))
    = Returns p'.
Proof.
  exact (proj1 (proj2 actor_never_pops_empty_queue)
               (CallSend "land") (start tello) _ eq_refl).
Defined.

(** ** Runs of [main] *)

Lemma length_remove_nth {A : Type} (i : nat) (l : list A) (x : A) :
  nth_error l i = Some x ->
  S (List.length (remove_nth i l)) = List.length l.
Proof.
  intros H. unfold remove_nth.
  assert (Hi : i < List.length l) by (apply nth_error_Some; congruence).
  rewrite length_app, length_firstn, length_skipn. lia.
Qed.

(** With an empty queue, a call of [send] adds one outstanding send and
    a send completion retires one. *)
Lemma deliver_in_flight (ev : event) (p p' : process) :
  send_queue (conn p) = [] ->
  deliver ev p = Some (Returns p') ->
  in_flight p' + send_completions [ev]
  = in_flight p + List.length (sends_of [ev]).
Proof.
  intros E. unfold in_flight.
  destruct ev as [message | i ec n | ec datagram sender]; unfold deliver.
  - rewrite send_idle by assumption. simpl. intros [= <-]. simpl.
    rewrite length_app. simpl. lia.
  - destruct (nth_error _ i) as [op|] eqn:Hn; [|discriminate].
    apply length_remove_nth in Hn.
    unfold send_handler. destruct (ec_ok ec).
    + simpl. rewrite E. simpl. intros [= <-]. simpl. lia.
    + intros [= <-]. simpl. lia.
  - destruct (receives_outstanding _) as [|k]; [discriminate|].
    unfold retire_receive, receive_handler.
    destruct (ec_ok ec); intros [= <-]; simpl; lia.
Qed.

Lemma run_in_flight (evs : list event) :
  forall (p p' : process),
    send_queue (conn p) = [] ->
    run evs p = Some (Returns p') ->
    in_flight p' + send_completions evs
    = in_flight p + List.length (sends_of evs).
Proof.
  induction evs as [|ev rest IH]; intros p p' E H.
  - simpl in H. injection H as <-. simpl. lia.
  - apply run_cons_inv in H as (p1 & H1 & H2).
    pose proof (deliver_in_flight _ _ _ E H1) as Hd.
    pose proof (IH _ _ (deliver_queue_empty _ _ _ E H1) H2) as Hr.
    destruct ev; simpl in *; lia.
Qed.

(** In a run of [main], after every event the queue is empty and every
    payload passed to [send] so far has been handed to the socket, in
    call order, whatever the completions reported: a failed send does
    not hold back later ones.  The sends outstanding are the calls of
    [send] less the completions delivered. *)
Theorem main_sends_at_once :
  forall (ep : udp_endpoint) (evs : list event) (p : process),
    run evs (start ep) = Some (Returns p) ->
    send_queue (conn p) = [] /\
    transmitted p = sends_of evs /\
    in_flight p + send_completions evs = List.length (sends_of evs).
Proof.
  intros ep evs p H. split; [|split].
  - exact (run_start_queue_empty _ _ _ H).
  - exact (run_start_transmitted _ _ _ H).
  - exact (run_in_flight evs (start ep) p eq_refl H).
Qed.

Lemma main_sends_at_once_witness :
  let refused := {| ec_value := 111; ec_message := "Connection refused" |} in
  let evs := [CallSend "command"; CallSend "takeoff";
              SendCompletes 0 refused 0; CallSend "land"] in
  exists p : process,
    run evs (start tello) = Some (Returns p) /\
    send_queue (conn p) = [] /\
    transmitted p = ["command"; "takeoff"; "land"] /\
    in_flight p = 2.
Proof.
  cbv zeta. eexists. split; [vm_compute; reflexivity|].
  match goal with
  | |- send_queue (conn ?q) = _ /\ _ =>
      destruct (main_sends_at_once tello
                  [CallSend "command"; CallSend "takeoff";
                   SendCompletes 0
                     {| ec_value := 111; ec_message := "Connection refused" |} 0;
                   CallSend "land"] q eq_refl) as (Hq & Ht & Hf)
  end.
  split; [exact Hq|]. split; [exact Ht|].
  apply (Nat.add_cancel_r _ _ 1). exact Hf.
Defined.

(** ** What the connection writes and keeps *)

Lemma string_append_assoc (a b c : string) :
  ((a ++ b) ++ c = a ++ (b ++ c))%string.
Proof. induction a as [|x a IH]; simpl; [reflexivity | now rewrite IH]. Qed.

Lemma string_append_nil_r (a : string) : (a ++ EmptyString = a)%string.
Proof. induction a as [|x a IH]; simpl; [reflexivity | now rewrite IH]. Qed.

Lemma length_zeros (n : nat) : String.length (zeros n) = n.
Proof. induction n as [|n IH]; simpl; [reflexivity | now rewrite IH]. Qed.

(** The receive side of one event: the buffer keeps its size, the
    handler writes its line, and only a failed receive lowers the number
    of receives outstanding. *)
Lemma deliver_receive_side (size : nat) (ev : event) (p p' : process) :
  String.length (receive_buffer (conn p)) = size ->
  deliver ev p = Some (Returns p') ->
  String.length (receive_buffer (conn p')) = size /\
  cout p' = (cout p ++ console_line size ev)%string /\
  receives_outstanding (socket (conn p')) + failed_receives [ev]
  = receives_outstanding (socket (conn p)).
Proof.
  intros Hs.
  destruct ev as [message | i ec n | ec datagram sender]; unfold deliver.
  - destruct (send_queue (conn p)) as [|front rest] eqn:E.
    + rewrite send_idle by assumption. simpl. intros [= <-]. simpl.
      rewrite string_append_nil_r. repeat split; trivial; lia.
    + rewrite send_busy by congruence. simpl. intros [= <-]. simpl.
      rewrite string_append_nil_r. repeat split; trivial; lia.
  - destruct (nth_error _ i) as [op|] eqn:Hn; [|discriminate].
    unfold send_handler. destruct (ec_ok ec).
    + destruct (send_queue (conn p)) as [|front rest] eqn:E; simpl; rewrite E; simpl.
      * intros [= <-]. simpl.
        rewrite string_append_nil_r. repeat split; trivial; lia.
      * rewrite (async_send_front _ front rest) by exact E. simpl.
        intros [= <-]. simpl.
        rewrite string_append_nil_r. repeat split; trivial; lia.
    + intros [= <-]. simpl.
      rewrite string_append_nil_r. repeat split; trivial; lia.
  - destruct (receives_outstanding _) as [|k]; [discriminate|].
    unfold retire_receive, receive_handler. simpl.
    destruct (ec_ok ec); intros [= <-]; simpl.
    + rewrite length_store_datagram, store_datagram_prefix.
      unfold bytes_stored. rewrite Hs. repeat split; trivial; lia.
    + repeat split; trivial; lia.
Qed.

Lemma run_receive_side (size : nat) (evs : list event) :
  forall (p p' : process),
    String.length (receive_buffer (conn p)) = size ->
    run evs p = Some (Returns p') ->
    String.length (receive_buffer (conn p')) = size /\
    cout p' = (cout p ++ console_of size evs)%string /\
    receives_outstanding (socket (conn p')) + failed_receives evs
    = receives_outstanding (socket (conn p)).
Proof.
  induction evs as [|ev rest IH]; intros p p' Hs H.
  - simpl in H. injection H as <-. simpl.
    rewrite string_append_nil_r. repeat split; trivial; lia.
  - apply run_cons_inv in H as (p1 & H1 & H2).
    destruct (deliver_receive_side size _ _ _ Hs H1) as (Hs1 & Ho1 & Hr1).
    destruct (IH _ _ Hs1 H2) as (Hs2 & Ho2 & Hr2).
    split; [exact Hs2|]. split.
    + rewrite Ho2, Ho1. simpl. apply string_append_assoc.
    + assert (failed_receives (ev :: rest)
              = failed_receives [ev] + failed_receives rest)
        by (destruct ev; simpl; lia).
      lia.
Qed.

Lemma deliver_cerr (ev : event) (p p' : process) :
  deliver ev p = Some (Returns p') ->
  cerr p' = (cerr p ++ error_line ev)%string.
Proof.
  destruct ev as [message | i ec n | ec datagram sender]; unfold deliver.
  - destruct (send_queue (conn p)) as [|front rest] eqn:E.
    + rewrite send_idle by assumption. simpl. intros [= <-]. simpl.
      now rewrite string_append_nil_r.
    + rewrite send_busy by congruence. simpl. intros [= <-]. simpl.
      now rewrite string_append_nil_r.
  - destruct (nth_error _ i) as [op|] eqn:Hn; [|discriminate].
    unfold send_handler, error_line. destruct (ec_ok ec).
    + destruct (send_queue (conn p)) as [|front rest] eqn:E; simpl; rewrite E; simpl.
      * intros [= <-]. simpl. now rewrite string_append_nil_r.
      * rewrite (async_send_front _ front rest) by exact E. simpl.
        intros [= <-]. simpl. now rewrite string_append_nil_r.
    + now intros [= <-].
  - destruct (receives_outstanding _) as [|k]; [discriminate|].
    unfold retire_receive, receive_handler. simpl.
    destruct (ec_ok ec); intros [= <-]; simpl;
      now rewrite string_append_nil_r.
Qed.

(** In a run of [main] one receive is outstanding until a receive
    completion reports an error and none afterwards: at most one failed
    receive is ever delivered, and after it no receive completion can be
    delivered at all. *)
Theorem main_listens_until_first_error :
  forall (ep : udp_endpoint) (evs : list event) (p : process),
    run evs (start ep) = Some (Returns p) ->
    receives_outstanding (socket (conn p)) + failed_receives evs = 1 /\
    (forall (ec : error_code) (datagram : string) (sender : udp_endpoint),
       failed_receives evs = 1 ->
       deliver (ReceiveCompletes ec datagram sender) p = None).
Proof.
  intros ep evs p H.
  destruct (run_receive_side _ evs (start ep) p eq_refl H) as (_ & _ & Hr).
  simpl in Hr. split; [exact Hr|].
  intros ec datagram sender Hf. unfold deliver.
  replace (receives_outstanding (socket (conn p))) with 0 by lia.
  reflexivity.
Qed.

Lemma main_listens_until_first_error_witness :
  let reset := {| ec_value := 104; ec_message := "Connection reset by peer" |} in
  let evs := [ReceiveCompletes ok "ok" tello; CallSend "land";
              ReceiveCompletes reset "" tello] in
  exists p : process,
    run evs (start tello) = Some (Returns p) /\
    receives_outstanding (socket (conn p)) = 0 /\
    deliver (ReceiveCompletes ok "ok" tello) p = None.
Proof.
  cbv zeta. eexists. split; [vm_compute; reflexivity|].
  match goal with
  | |- receives_outstanding (socket (conn ?q)) = _ /\ _ =>
      destruct (main_listens_until_first_error tello
                  [ReceiveCompletes ok "ok" tello; CallSend "land";
                   ReceiveCompletes
                     {| ec_value := 104;
                        ec_message := "Connection reset by peer" |} "" tello]
                  q eq_refl) as (Hr & Hn)
  end.
  split.
  - apply (Nat.add_cancel_r _ _ 1). exact Hr.
  - apply Hn. reflexivity.
Defined.

(** In a run of [main] the receive buffer keeps the 1518 bytes the
    constructor gave it, and what the connection writes to [std::cout]
    is, in arrival order, one line per receive completion: the datagram
    cut to 1518 bytes followed by a line end and the prompt, or the
    error message.  Bytes a longer earlier datagram left in the buffer
    never show up in a later line. *)
Theorem main_console_output :
  forall (ep : udp_endpoint) (evs : list event) (p : process),
    run evs (start ep) = Some (Returns p) ->
    String.length (receive_buffer (conn p)) = 1518 /\
    cout p = console_of 1518 evs.
Proof.
  intros ep evs p H.
  destruct (run_receive_side 1518 evs (start ep) p (length_zeros 1518) H)
    as (Hs & Ho & _).
  split; [exact Hs | exact Ho].
Qed.

Lemma main_console_output_witness :
  let evs := [ReceiveCompletes ok "battery low" tello; CallSend "land";
              ReceiveCompletes ok "ok" tello] in
  exists p : process,
    run evs (start tello) = Some (Returns p) /\
    substring 0 11 (receive_buffer (conn p)) = "okttery low" /\
    cout p = ("battery low" ++ endl ++ "> " ++ "ok" ++ endl ++ "> ")%string.
Proof.
  cbv zeta. eexists. split; [vm_compute; reflexivity|].
  split; [vm_compute; reflexivity|].
  match goal with
  | |- cout ?q = _ =>
      destruct (main_console_output tello
                  [ReceiveCompletes ok "battery low" tello; CallSend "land";
                   ReceiveCompletes ok "ok" tello] q eq_refl) as (_ & Ho)
  end.
  exact Ho.
Defined.

(** From any state, what the connection writes to [std::cerr] is one
    line per failed send completion, in the order the completions are
    delivered, and nothing else. *)
Theorem cerr_lists_failed_sends :
  forall (evs : list event) (p p' : process),
    run evs p = Some (Returns p') ->
    cerr p' = (cerr p ++ errors_of evs)%string.
Proof.
  induction evs as [|ev rest IH]; intros p p' H.
  - simpl in H. injection H as <-. simpl. now rewrite string_append_nil_r.
  - apply run_cons_inv in H as (p1 & H1 & H2).
    rewrite (IH _ _ H2), (deliver_cerr _ _ _ H1). simpl.
    apply string_append_assoc.
Qed.

Lemma cerr_lists_failed_sends_witness :
  let refused := {| ec_value := 111; ec_message := "Connection refused" |} in
  let evs := [CallSend "command"; CallSend "land";
              SendCompletes 1 refused 0; SendCompletes 0 ok 7] in
  exists p : process,
    run evs (start tello) = Some (Returns p) /\
    cerr p = ("error sending: Connection refused" ++ endl)%string.
Proof.
  cbv zeta. eexists. split; [vm_compute; reflexivity|].
  match goal with
  | |- cerr ?q = _ =>
      exact (cerr_lists_failed_sends
               [CallSend "command"; CallSend "land";
                SendCompletes 1
                  {| ec_value := 111; ec_message := "Connection refused" |} 0;
                SendCompletes 0 ok 7] (start tello) q eq_refl)
  end.
Defined.

(** What the two paths share.  A call of [send] or a send completion
    leaves the receive buffer, the receives outstanding, [std::cout] and
    [this->endpoint] as they were.  A receive completion leaves the
    queue, the sends outstanding, the datagrams handed to the socket and
    [std::cerr] as they were, but it does reach the send path through
    [this->endpoint]: a successful one sets it to the sender of the
    datagram, so that the next send goes there; a failed one leaves it. *)
Theorem paths_share_only_the_endpoint :
  forall (ev : event) (p p' : process),
    deliver ev p = Some (Returns p') ->
    match ev with
    | ReceiveCompletes ec _ sender =>
        send_queue (conn p') = send_queue (conn p) /\
        sends_outstanding (socket (conn p'))
        = sends_outstanding (socket (conn p)) /\
        wire (socket (conn p')) = wire (socket (conn p)) /\
        cerr p' = cerr p /\
        endpoint (conn p') = (if ec_ok ec then sender else endpoint (conn p)) /\
        (forall message : string,
           exists p'' : process,
             deliver (CallSend message) p' = Some (Returns p'') /\
             (send_queue (conn p) = [] ->
              wire (socket (conn p''))
              = wire (socket (conn p))
                ++ [{| so_payload := message;
                       so_destination :=
                         if ec_ok ec then sender else endpoint (conn p) |}]))
    | _ =>
        receive_buffer (conn p') = receive_buffer (conn p) /\
        receives_outstanding (socket (conn p'))
        = receives_outstanding (socket (conn p)) /\
        cout p' = cout p /\
        endpoint (conn p') = endpoint (conn p)
    end.
Proof.
  intros ev p p'.
  destruct ev as [message | i ec n | ec datagram sender]; unfold deliver.
  - destruct (send_queue (conn p)) as [|front rest] eqn:E.
    + rewrite send_idle by assumption. simpl. intros [= <-]. now repeat split.
    + rewrite send_busy by congruence. simpl. intros [= <-]. now repeat split.
  - destruct (nth_error _ i) as [op|] eqn:Hn; [|discriminate].
    unfold send_handler. destruct (ec_ok ec).
    + destruct (send_queue (conn p)) as [|front rest] eqn:E; simpl; rewrite E; simpl.
      * intros [= <-]. now repeat split.
      * rewrite (async_send_front _ front rest) by exact E. simpl.
        intros [= <-]. now repeat split.
    + intros [= <-]. now repeat split.
  - destruct (receives_outstanding _) as [|k]; [discriminate|].
    unfold retire_receive, receive_handler.
    destruct (ec_ok ec); intros [= <-];
      (do 5 (split; [reflexivity|]));
      intros message; unfold deliver;
      destruct (send_queue (conn p)) as [|front rest] eqn:E.
    + rewrite send_idle by reflexivity.
      eexists. split; [reflexivity|]. intros _. reflexivity.
    + rewrite send_busy by discriminate.
      eexists. split; [reflexivity|]. discriminate.
    + rewrite send_idle by exact E.
      eexists. split; [reflexivity|]. intros _. reflexivity.
    + rewrite send_busy by (simpl; rewrite E; discriminate).
      eexists. split; [reflexivity|]. discriminate.
Qed.

Lemma paths_share_only_the_endpoint_witness :
  exists p' p'' : process,
    deliver (ReceiveCompletes ok "ok" other_host) (start tello)
    = Some (Returns p') /\
    deliver (CallSend "land") p' = Some (Returns p'') /\
    send_queue (conn p') = [] /\
    endpoint (conn p') = other_host /\
    wire (socket (conn p''))
    = [{| so_payload := "land"; so_destination := other_host |}].
Proof.
  eexists. eexists. split; [vm_compute; reflexivity|].
  match goal with
  | |- deliver _ ?q = _ /\ _ =>
      pose proof (paths_share_only_the_endpoint
                    (ReceiveCompletes ok "ok" other_host) (start tello) q
                    eq_refl) as (Hq & _ & _ & _ & He & Hs)
  end.
  destruct (Hs "land") as (p2 & Hd & Hw).
  split; [vm_compute; reflexivity|].
  split; [exact Hq|]. split; [exact He|].
  vm_compute. reflexivity.
Defined.

(** ** The polling loop *)

Lemma run_cons_send (message : string) (rest : list event) (p : process) :
  run (CallSend message :: rest) p =
  match send message (conn p) with
  | Returns c' => run rest (set_conn c' p)
  | Throws what => Some (Throws what)
  | Undefined => Some Undefined
  end.
Proof. simpl. now destruct (send message (conn p)). Qed.

Lemma sends_of_app (evs1 evs2 : list event) :
  sends_of (evs1 ++ evs2) = sends_of evs1 ++ sends_of evs2.
Proof.
  induction evs1 as [|ev rest IH]; [reflexivity|].
  destruct ev; simpl; now rewrite IH.
Qed.

Lemma sends_of_calls (messages : list string) :
  sends_of (map CallSend messages) = messages.
Proof.
  induction messages as [|message rest IH]; simpl; [reflexivity | now rewrite IH].
Qed.

(** One iteration is the calls of [send] for its commands, in order. *)
Lemma loop_body_as_events (GLFW_PRESS : Z) (state : gamepad) (p : process) :
  run (map CallSend (loop_commands GLFW_PRESS state)) p =
  Some (c' <- loop_body GLFW_PRESS state (conn p) ;; Returns (set_conn c' p)).
Proof.
  unfold loop_body, loop_commands, send_when.
  destruct (button_a state =? GLFW_PRESS)%Z,
           (button_b state =? GLFW_PRESS)%Z,
           (button_x state =? GLFW_PRESS)%Z;
    cbn [app map bind];
    repeat (rewrite run_cons_send;
            match goal with
            | |- context [send ?m ?c] =>
                let c1 := fresh "c" in
                let H := fresh "H" in
                destruct (send_returns m c) as [c1 H];
                cbn [conn set_conn] in H |- *;
                rewrite H; cbn [bind conn set_conn]
            end);
    reflexivity.
Qed.

Lemma loop_commands_length (GLFW_PRESS : Z) (state : gamepad) :
  1 <= List.length (loop_commands GLFW_PRESS state) <= 4.
Proof.
  unfold loop_commands.
  destruct (button_a state =? GLFW_PRESS)%Z,
           (button_b state =? GLFW_PRESS)%Z,
           (button_x state =? GLFW_PRESS)%Z; simpl; lia.
Qed.

Lemma sends_of_loop_events (GLFW_PRESS : Z)
    (iterations : list (list event * gamepad)) :
  Forall (fun it => sends_of (fst it) = []) iterations ->
  sends_of (loop_events GLFW_PRESS iterations)
  = flat_map (fun it => loop_commands GLFW_PRESS (snd it)) iterations.
Proof.
  induction 1 as [|[polled state] rest Hp _ IH]; [reflexivity|].
  simpl in Hp. simpl.
  rewrite !sends_of_app, sends_of_calls, Hp, IH. reflexivity.
Qed.

Lemma flat_map_length_ge {A B : Type} (f : A -> list B) (l : list A) :
  (forall a, 1 <= List.length (f a)) ->
  List.length l <= List.length (flat_map f l).
Proof.
  intros Hf. induction l as [|a l IH]; simpl; [lia|].
  rewrite length_app. specialize (Hf a). lia.
Qed.

(** One iteration of the polling loop always returns, in any state of
    the connection, and is the calls of [send] for between one and four
    payloads: [command], [takeoff] and [land] for the buttons pressed,
    in that order, and always, last, the rc command.  Started with an
    empty queue it hands all of them to the socket in that order and
    leaves the queue empty, with as many more sends outstanding. *)
Theorem loop_iteration_sends_commands :
  forall (GLFW_PRESS : Z) (state : gamepad) (p : process),
    exists c' : Connection,
      loop_body GLFW_PRESS state (conn p) = Returns c' /\
      run (map CallSend (loop_commands GLFW_PRESS state)) p
      = Some (Returns (set_conn c' p)) /\
      1 <= List.length (loop_commands GLFW_PRESS state) <= 4 /\
      last (loop_commands GLFW_PRESS state) EmptyString
      = rc_command (scaled_axis0 state) (scaled_axis1 state)
                   (scaled_axis2 state) (scaled_axis3 state) /\
      (send_queue (conn p) = [] ->
       send_queue c' = [] /\
       transmitted (set_conn c' p)
       = transmitted p ++ loop_commands GLFW_PRESS state /\
       in_flight (set_conn c' p)
       = in_flight p + List.length (loop_commands GLFW_PRESS state)).
Proof.
  intros press state p.
  pose proof (loop_body_as_events press state p) as He.
  destruct (run_returns _ _ _ He) as [p' Hp].
  destruct (loop_body press state (conn p)) as [c'| |]; try discriminate.
  exists c'. split; [reflexivity|]. split; [exact He|].
  split; [apply loop_commands_length|]. split.
  - unfold loop_commands.
    destruct (button_a state =? press)%Z, (button_b state =? press)%Z,
             (button_x state =? press)%Z; reflexivity.
  - intros Hq.
    destruct (sends_back_to_back (loop_commands press state) p Hq)
      as (p2 & Hr & Hq2 & Ht & Hs).
    rewrite He in Hr. injection Hr as <-.
    split; [exact Hq2|]. split; [exact Ht|].
    unfold in_flight. rewrite <- (length_map so_payload), Hs.
    now rewrite length_app, length_map.
Qed.

Lemma loop_iteration_sends_commands_witness :
  let state := {| button_a := 0; button_b := 1; button_x := 1;
                  scaled_axis0 := 100; scaled_axis1 := 0;
                  scaled_axis2 := 10; scaled_axis3 := -5 |} in
  exists c' : Connection,
    loop_body 1 state (conn (start tello)) = Returns c' /\
    transmitted (set_conn c' (start tello))
    = ["takeoff"; "land"; "rc 10 -5 0 100"] /\
    in_flight (set_conn c' (start tello)) = 3.
Proof.
  cbv zeta.
  destruct (loop_iteration_sends_commands 1
              {| button_a := 0; button_b := 1; button_x := 1;
                 scaled_axis0 := 100; scaled_axis1 := 0;
                 scaled_axis2 := 10; scaled_axis3 := -5 |} (start tello))
    as (c' & Hb & _ & _ & _ & Hq).
  destruct (Hq eq_refl) as (_ & Ht & Hf).
  exists c'. split; [exact Hb|]. split; [exact Ht | exact Hf].
Defined.

(** Over any number of iterations of the polling loop of [main], with
    whatever completions [io_context.poll ()] delivers in between, the
    payloads handed to the socket are the commands of the iterations, in
    order: at least one datagram per iteration.  When no completion is
    delivered every iteration returns and all these sends are
    outstanding together. *)
Theorem main_loop_transmits_every_command :
  forall (GLFW_PRESS : Z) (ep : udp_endpoint),
    (forall (iterations : list (list event * gamepad)) (p : process),
       Forall (fun it => sends_of (fst it) = []) iterations ->
       run (loop_events GLFW_PRESS iterations) (start ep) = Some (Returns p) ->
       transmitted p
       = flat_map (fun it => loop_commands GLFW_PRESS (snd it)) iterations /\
       List.length iterations <= List.length (transmitted p)) /\
    (forall states : list gamepad,
       exists p : process,
         run (loop_events GLFW_PRESS (map (fun state => ([], state)) states))
             (start ep) = Some (Returns p) /\
         List.length states <= in_flight p /\
         in_flight p = List.length (transmitted p)).
Proof.
  intros press ep. split.
  - intros iterations p Hp H.
    rewrite (run_start_transmitted _ _ _ H), (sends_of_loop_events _ _ Hp).
    split; [reflexivity|].
    apply flat_map_length_ge. intros it. apply loop_commands_length.
  - intros states.
    set (f := fun state : gamepad => loop_commands press state).
    assert (He : loop_events press (map (fun state => ([], state)) states)
                 = map CallSend (flat_map f states)).
    { induction states as [|state rest IH]; [reflexivity|].
      simpl. rewrite IH, map_app. reflexivity. }
    rewrite He.
    destruct (sends_back_to_back (flat_map f states) (start ep) eq_refl)
      as (p & Hr & _ & Ht & Hs).
    exists p. split; [exact Hr|].
    assert (Hf : in_flight p = List.length (flat_map f states)).
    { unfold in_flight. rewrite <- (length_map so_payload), Hs. reflexivity. }
    rewrite Hf, Ht. split; [|reflexivity].
    apply flat_map_length_ge. intros state. apply loop_commands_length.
Qed.

Lemma main_loop_transmits_every_command_witness :
  let idle := {| button_a := 0; button_b := 0; button_x := 0;
                 scaled_axis0 := 0; scaled_axis1 := 0;
                 scaled_axis2 := 0; scaled_axis3 := 0 |} in
  let up := {| button_a := 0; button_b := 1; button_x := 0;
               scaled_axis0 := 0; scaled_axis1 := 150;
               scaled_axis2 := 0; scaled_axis3 := 0 |} in
  exists p : process,
    run (loop_events 1 [([], up); ([SendCompletes 0 ok 7], idle)])
        (start tello) = Some (Returns p) /\
    transmitted p = ["takeoff"; "rc 0 0 100 0"; "rc 0 0 0 0"].
Proof.
  cbv zeta. eexists. split; [vm_compute; reflexivity|].
  match goal with
  | |- transmitted ?q = _ =>
      destruct (proj1 (main_loop_transmits_every_command 1 tello)
                  [([], {| button_a := 0; button_b := 1; button_x := 0;
                           scaled_axis0 := 0; scaled_axis1 := 150;
                           scaled_axis2 := 0; scaled_axis3 := 0 |});
                   ([SendCompletes 0 ok 7],
                    {| button_a := 0; button_b := 0; button_x := 0;
                       scaled_axis0 := 0; scaled_axis1 := 0;
                       scaled_axis2 := 0; scaled_axis3 := 0 |})]
                  q) as (Ht & _)
  end.
  - repeat constructor.
  - reflexivity.
  - exact Ht.
Defined.

(** ** The text of the rc command *)

Lemma in_z_range (n : nat) :
  forall lo v : Z, (lo <= v < lo + Z.of_nat n)%Z -> In v (z_range lo n).
Proof.
  induction n as [|n IH]; intros lo v H; [lia|].
  simpl. destruct (Z.eq_dec lo v) as [E|E]; [now left|].
  right. apply IH. lia.
Qed.

Lemma string_forallb_app (f : ascii -> bool) (a b : string) :
  string_forallb f (a ++ b) = string_forallb f a && string_forallb f b.
Proof.
  induction a as [|c a IH]; simpl; [reflexivity|].
  now rewrite IH, andb_assoc.
Qed.

(** A field in [-100, 100] prints as one to four characters, each a
    digit or the minus sign. *)
Lemma format_int_field (v : Z) :
  (-100 <= v <= 100)%Z ->
  1 <= String.length (format_int v) <= 4 /\
  string_forallb rc_char (format_int v) = true.
Proof.
  intros H.
  assert (Hall : forallb
                   (fun x => Nat.leb 1 (String.length (format_int x))
                             && Nat.leb (String.length (format_int x)) 4
                             && string_forallb rc_char (format_int x))
                   (z_range (-100) 201) = true) by (vm_compute; reflexivity).
  rewrite forallb_forall in Hall.
  specialize (Hall v (in_z_range 201 (-100) v ltac:(lia))).
  apply andb_prop in Hall as [Hall Hc].
  apply andb_prop in Hall as [Hlo Hhi].
  apply Nat.leb_le in Hlo. apply Nat.leb_le in Hhi.
  now repeat split.
Qed.

(** Whatever the axes, the rc command is between 10 and 22 characters
    long and consists of the letters of [rc], spaces, minus signs and
    decimal digits only (no line end, no NUL); its fields are the scaled
    axes 2, 3, 1, 0, each brought to the nearest value in [-100, 100]. *)
Theorem rc_command_is_short_text :
  forall s0 s1 s2 s3 : Z,
    let saturate := fun v : Z => Z.max (-100) (Z.min v 100) in
    10 <= String.length (rc_command s0 s1 s2 s3) <= 22 /\
    string_forallb rc_char (rc_command s0 s1 s2 s3) = true /\
    rc_fields s0 s1 s2 s3
    = (saturate s2, saturate s3, saturate s1, saturate s0).
Proof.
  intros s0 s1 s2 s3. cbv zeta.
  assert (Hb : forall v, (-100 <= clamp v (-100) 100 <= 100)%Z)
    by (intros v; apply clamp_bounds; lia).
  destruct (format_int_field _ (Hb s0)) as [L0 C0].
  destruct (format_int_field _ (Hb s1)) as [L1 C1].
  destruct (format_int_field _ (Hb s2)) as [L2 C2].
  destruct (format_int_field _ (Hb s3)) as [L3 C3].
  assert (Hs : forall v, clamp v (-100) 100 = Z.max (-100) (Z.min v 100)).
  { intros v. unfold clamp.
    destruct (Z.ltb_spec v (-100)); [lia|].
    destruct (Z.ltb_spec 100 v); lia. }
  unfold rc_command, rc_fields, rc_format. cbv zeta iota beta.
  repeat split.
  - rewrite !length_string_append. simpl String.length. lia.
  - rewrite !length_string_append. simpl String.length. lia.
  - rewrite !string_forallb_app, C0, C1, C2, C3. reflexivity.
  - now rewrite !Hs.
Qed.

(** ** The joystick callback *)

Lemma joystick_callbacks_app (C D : Z) (before after : list (Z * Z)) :
  forall id : Z,
    joystick_callbacks C D (before ++ after) id
    = joystick_callbacks C D after (joystick_callbacks C D before id).
Proof.
  induction before as [|[jid event] rest IH]; intros id; simpl; trivial.
Qed.

Lemma joystick_callbacks_ignored (C D : Z) (calls : list (Z * Z)) :
  Forall (fun call => snd call <> C /\ snd call <> D) calls ->
  forall id : Z, joystick_callbacks C D calls id = id.
Proof.
  induction 1 as [|[jid event] rest [HC HD] _ IH]; intros id; simpl; trivial.
  simpl in HC, HD. rewrite IH. unfold joystick_callback.
  destruct (Z.eqb_spec event C); [contradiction|].
  destruct (Z.eqb_spec event D); [contradiction|]. reflexivity.
Qed.

(** After any sequence of callbacks, [CONNECTED_JOYSTICK_ID] is decided
    by the last call whose event is one of the two codes: the [jid] of a
    connect, and -1 after a disconnect of any joystick, whichever one
    was recorded before.  Calls with other event codes leave it as it
    was. *)
Theorem joystick_id_follows_last_event :
  forall (GLFW_CONNECTED GLFW_DISCONNECTED : Z)
         (before after : list (Z * Z)) (jid id : Z),
    GLFW_CONNECTED <> GLFW_DISCONNECTED ->
    Forall (fun call => snd call <> GLFW_CONNECTED /\
                        snd call <> GLFW_DISCONNECTED) after ->
    joystick_callbacks GLFW_CONNECTED GLFW_DISCONNECTED
      (before ++ (jid, GLFW_CONNECTED) :: after) id = jid /\
    joystick_callbacks GLFW_CONNECTED GLFW_DISCONNECTED
      (before ++ (jid, GLFW_DISCONNECTED) :: after) id = (-1)%Z /\
    joystick_callbacks GLFW_CONNECTED GLFW_DISCONNECTED after id = id.
Proof.
  intros C D before after jid id Hne Hafter.
  rewrite !joystick_callbacks_app. simpl.
  rewrite !(joystick_callbacks_ignored _ _ _ Hafter).
  unfold joystick_callback. rewrite !Z.eqb_refl.
  destruct (Z.eqb_spec D C); [now elim Hne|]. now repeat split.
Qed.

Lemma joystick_id_follows_last_event_witness :
  (joystick_callbacks 262145 262146
     ([(0, 262145)] ++ (3, 262145) :: [(0, 7)]) (-1) = 3 /\
   joystick_callbacks 262145 262146
     ([(0, 262145)] ++ (3, 262146) :: [(0, 7)]) (-1) = -1 /\
   joystick_callbacks 262145 262146 [(0, 7)] (-1) = -1)%Z.
Proof.
  apply (joystick_id_follows_last_event 262145 262146 [(0, 262145)%Z]
           [(0, 7)%Z] 3 (-1)).
  - discriminate.
  - repeat constructor; discriminate.
Defined.

(** ** The rc command, in full *)

Lemma clamp_is_max_min (v : Z) :
  clamp v (-100) 100 = Z.max (-100) (Z.min v 100).
Proof.
  unfold clamp.
  destruct (Z.ltb_spec v (-100)); [lia|].
  destruct (Z.ltb_spec 100 v); lia.
Qed.

(** On the range of a field, [std::format] writes the decimal numeral,
    which has no space in it and reads back as the value. *)
Lemma format_int_is_decimal (v : Z) :
  (-100 <= v <= 100)%Z ->
  format_int v = decimal_numeral v /\
  parse_decimal (decimal_numeral v) = Some v /\
  string_forallb no_space (decimal_numeral v) = true.
Proof.
  intros H.
  assert (Hall : forallb
                   (fun x => String.eqb (format_int x) (decimal_numeral x)
                             && match parse_decimal (decimal_numeral x) with
                                | Some w => Z.eqb w x
                                | None => false
                                end
                             && string_forallb no_space (decimal_numeral x))
                   (z_range (-100) 201) = true) by (vm_compute; reflexivity).
  rewrite forallb_forall in Hall.
  specialize (Hall v (in_z_range 201 (-100) v ltac:(lia))).
  apply andb_prop in Hall as [Hall Hs].
  apply andb_prop in Hall as [Hf Hp].
  apply String.eqb_eq in Hf.
  destruct (parse_decimal (decimal_numeral v)) as [w|]; [|discriminate].
  apply Z.eqb_eq in Hp. subst w. now repeat split.
Qed.

Lemma split_spaces_word (word : string) :
  string_forallb no_space word = true -> split_spaces word = [word].
Proof.
  induction word as [|c word IH]; simpl; [reflexivity|].
  intros H. apply andb_prop in H as [Hc Hw].
  unfold no_space in Hc. apply negb_true_iff in Hc. rewrite Hc.
  now rewrite (IH Hw).
Qed.

Lemma split_spaces_app (word rest : string) :
  string_forallb no_space word = true ->
  split_spaces (word ++ String " " rest) = word :: split_spaces rest.
Proof.
  induction word as [|c word IH]; simpl; [reflexivity|].
  intros H. apply andb_prop in H as [Hc Hw].
  unfold no_space in Hc. apply negb_true_iff in Hc. rewrite Hc.
  now rewrite (IH Hw).
Qed.

(** C9.  For all scaled axis values the fields of the rc command are
    the axes 2, 3, 1, 0, each brought into [-100, 100] (a value inside
    the range is kept, one above gives 100, one below gives -100), and
    the command is the text [rc], a space, and the decimal numerals of
    the four fields separated by single spaces: cut at the spaces it is
    [rc] and four words that read back as the four fields.  In
    particular 150 gives 100, -150 gives -100, 42 gives 42, and the
    fields 10, -5, 0, 100 give the string [rc 10 -5 0 100]. *)
Theorem rc_command_clamps_and_formats :
  forall s0 s1 s2 s3 : Z,
    let saturate := fun v : Z => Z.max (-100) (Z.min v 100) in
    let a := saturate s2 in
    let b := saturate s3 in
    let c := saturate s1 in
    let d := saturate s0 in
    rc_fields s0 s1 s2 s3 = (a, b, c, d) /\
    ((-100 <= a <= 100)%Z /\ (-100 <= b <= 100)%Z /\
     (-100 <= c <= 100)%Z /\ (-100 <= d <= 100)%Z) /\
    rc_command s0 s1 s2 s3
    = ("rc " ++ decimal_numeral a ++ " " ++ decimal_numeral b ++ " "
       ++ decimal_numeral c ++ " " ++ decimal_numeral d)%string /\
    rc_format a b c d = rc_command s0 s1 s2 s3 /\
    split_spaces (rc_command s0 s1 s2 s3)
    = ["rc"; decimal_numeral a; decimal_numeral b;
       decimal_numeral c; decimal_numeral d] /\
    map parse_decimal (tl (split_spaces (rc_command s0 s1 s2 s3)))
    = [Some a; Some b; Some c; Some d] /\
    clamp 150 (-100) 100 = 100%Z /\
    clamp (-150) (-100) 100 = (-100)%Z /\
    clamp 42 (-100) 100 = 42%Z /\
    rc_fields 42 0 150 (-150) = (100, -100, 0, 42)%Z /\
    rc_format 10 (-5) 0 100 = "rc 10 -5 0 100" /\
    rc_command 100 0 10 (-5) = "rc 10 -5 0 100".
Proof.
  intros s0 s1 s2 s3. cbv zeta.
  set (a := Z.max (-100) (Z.min s2 100)).
  set (b := Z.max (-100) (Z.min s3 100)).
  set (c := Z.max (-100) (Z.min s1 100)).
  set (d := Z.max (-100) (Z.min s0 100)).
  assert (Ha : (-100 <= a <= 100)%Z) by (subst a; lia).
  assert (Hb : (-100 <= b <= 100)%Z) by (subst b; lia).
  assert (Hc : (-100 <= c <= 100)%Z) by (subst c; lia).
  assert (Hd : (-100 <= d <= 100)%Z) by (subst d; lia).
  destruct (format_int_is_decimal a Ha) as (Fa & Pa & Sa).
  destruct (format_int_is_decimal b Hb) as (Fb & Pb & Sb).
  destruct (format_int_is_decimal c Hc) as (Fc & Pc & Sc).
  destruct (format_int_is_decimal d Hd) as (Fd & Pd & Sd).
  assert (Hfields : rc_fields s0 s1 s2 s3 = (a, b, c, d)).
  { unfold rc_fields. cbv zeta. now rewrite !clamp_is_max_min. }
  assert (Hformat : rc_format a b c d
                    = ("rc " ++ decimal_numeral a ++ " " ++ decimal_numeral b
                       ++ " " ++ decimal_numeral c ++ " "
                       ++ decimal_numeral d)%string).
  { unfold rc_format. now rewrite Fa, Fb, Fc, Fd. }
  assert (Hcommand : rc_command s0 s1 s2 s3 = rc_format a b c d).
  { unfold rc_command. now rewrite Hfields. }
  assert (Hsplit : split_spaces (rc_command s0 s1 s2 s3)
                   = ["rc"; decimal_numeral a; decimal_numeral b;
                      decimal_numeral c; decimal_numeral d]).
  { rewrite Hcommand, Hformat.
    change ("rc " ++ decimal_numeral a ++ " " ++ decimal_numeral b ++ " "
            ++ decimal_numeral c ++ " " ++ decimal_numeral d)%string
      with ("rc" ++ String " " (decimal_numeral a ++ String " "
              (decimal_numeral b ++ String " "
                 (decimal_numeral c ++ String " " (decimal_numeral d)))))%string.
    rewrite (split_spaces_app "rc") by reflexivity.
    rewrite (split_spaces_app _ _ Sa), (split_spaces_app _ _ Sb),
            (split_spaces_app _ _ Sc), (split_spaces_word _ Sd).
    reflexivity. }
  split; [exact Hfields|]. split; [now repeat split|].
  split; [now rewrite Hcommand|]. split; [now rewrite Hcommand|].
  split; [exact Hsplit|]. split.
  - rewrite Hsplit. simpl. now rewrite Pa, Pb, Pc, Pd.
  - repeat split.
Qed.
